(** * The request queue batcher and the link-string splitter of the OPC UA
      device support, embedded in Rocq.

    Sources:
    - [devOpcuaSup/RequestQueueBatcher.h]: class [RequestQueueBatcher<T>]
      (three FIFO queues, the parameter block, the worker loop [run]);
    - [unitTestApp/src/LinkParserTest.cpp]: the test corpus of [splitString].

    The C++ [double] is IEEE 754 binary64; it is embedded as [spec_float]
    with the operations of the library's executable specification at
    precision 53 and maximal exponent 1024, so every conversion and every
    rounding of the source is computed, not idealised. *)

From Stdlib Require Import ZArith NArith List Bool Lia String Ascii Permutation.
From Stdlib Require Import Floats.SpecFloat Floats.FloatOps.
Import ListNotations.

Set Implicit Arguments.

(* ================================================================== *)
(** * Part I: definitions                                              *)
(* ================================================================== *)

(** ** IEEE binary64 arithmetic as the source uses it *)

Definition double : Type := spec_float.

(** Unsigned integers ([unsigned int], [size_t]) are embedded in [N].
    Their conversion to [double] rounds to nearest even and is exact
    below 2^53. *)
Definition double_of_unsigned (n : N) : double :=
  binary_normalize prec emax (Z.of_N n) 0 false.

Definition dadd : double -> double -> double := SFadd prec emax.
Definition dsub : double -> double -> double := SFsub prec emax.
Definition dmul : double -> double -> double := SFmul prec emax.
Definition ddiv : double -> double -> double := SFdiv prec emax.

(** [x > y] on doubles (false as soon as one side is a NaN). *)
Definition dgt (x y : double) : bool := SFltb y x.
Definition deq (x y : double) : bool := SFeqb x y.

(** The literals [0.0] and [1e3]. *)
Definition d0 : double := S754_zero false.
Definition d1e3 : double := double_of_unsigned 1000.

(** Neither a NaN nor an infinity. *)
Definition dfinite (x : double) : bool :=
  match x with
  | S754_zero _ | S754_finite _ _ _ => true
  | S754_infinity _ | S754_nan => false
  end.

(** The negative zero. *)
Definition dnegzero (x : double) : bool :=
  match x with
  | S754_zero true => true
  | _ => false
  end.

(** Finite and not zero, with exponent at least [lo] and the leading bit
    of the mantissa below [2 ^ hi]. *)
Definition boxed (lo hi : Z) (x : double) : Prop :=
  match x with
  | S754_finite _ m e => (lo <= e /\ Zpos (digits2_pos m) + e <= hi)%Z
  | _ => False
  end.

Definition UINT_MAX : Z := 2 ^ 32 - 1.

(** The values of an [unsigned int]. *)
Definition unsigned_int (n : N) : Prop := (n < 2 ^ 32)%N.

(** The integral part of a double, fraction discarded (towards zero). *)
Definition dtrunc (x : double) : option Z :=
  match x with
  | S754_zero _ => Some 0%Z
  | S754_finite s m e => Some (cond_Zopp s (Z.shiftl (Zpos m) e))
  | S754_infinity _ | S754_nan => None
  end.

(** [static_cast<unsigned int>(x)]: the truncated value when [unsigned int]
    can hold it; the behaviour is undefined otherwise ([None]). *)
Definition unsigned_of_double (x : double) : option N :=
  match dtrunc x with
  | Some z => if ((0 <=? z) && (z <=? UINT_MAX))%Z then Some (Z.to_N z) else None
  | None => None
  end.

(** ** Priorities *)

(** [menuPriority] of EPICS base: 0 = low, 1 = mid, 2 = high. *)
Inductive menuPriority : Set :=
| menuPriorityLOW
| menuPriorityMID
| menuPriorityHIGH.

Definition menuPriority_eqb (p q : menuPriority) : bool :=
  match p, q with
  | menuPriorityLOW, menuPriorityLOW
  | menuPriorityMID, menuPriorityMID
  | menuPriorityHIGH, menuPriorityHIGH => true
  | _, _ => false
  end.

(** The order of the collection loop:
    [for (prio = menuPriority_NUM_CHOICES-1; prio >= menuPriorityLOW; prio--)]. *)
Definition descending : list menuPriority :=
  [menuPriorityHIGH; menuPriorityMID; menuPriorityLOW].

Definition nonempty {A : Type} (q : list A) : bool :=
  match q with [] => false | _ :: _ => true end.

(** ** The batcher object *)

Section Batcher.

(** The request cargo class (the template parameter). *)
Variable T : Type.

(** The data members of [RequestQueueBatcher<T>].  A [std::queue] is a
    list whose head is [front()]; the binary [epicsEvent] is a flag. *)
Record RequestQueueBatcher : Type := mkBatcher {
  queue : menuPriority -> list T;
  maxBatchSize : N;
  holdOffVar : double;
  holdOffFix : double;
  workToDo : bool;
  workerShutdown : bool
}.

Definition set_queue (b : RequestQueueBatcher) (p : menuPriority) (q : list T)
  : RequestQueueBatcher :=
  mkBatcher (fun p' => if menuPriority_eqb p p' then q else queue b p')
            (maxBatchSize b) (holdOffVar b) (holdOffFix b)
            (workToDo b) (workerShutdown b).

(** [workToDo.signal()] *)
Definition signal (b : RequestQueueBatcher) : RequestQueueBatcher :=
  mkBatcher (queue b) (maxBatchSize b) (holdOffVar b) (holdOffFix b)
            true (workerShutdown b).

(** [workToDo.wait()] once the event is full: the event is taken. *)
Definition wait (b : RequestQueueBatcher) : RequestQueueBatcher :=
  mkBatcher (queue b) (maxBatchSize b) (holdOffVar b) (holdOffFix b)
            false (workerShutdown b).

(** [pushRequest(std::shared_ptr<T> cargo, priority)] *)
Definition pushRequest (cargo : T) (priority : menuPriority)
           (b : RequestQueueBatcher) : RequestQueueBatcher :=
  signal (set_queue b priority (queue b priority ++ [cargo])).

(** [pushRequest(std::vector<std::shared_ptr<T>> &cargo, priority)] *)
Definition pushRequests (cargo : list T) (priority : menuPriority)
           (b : RequestQueueBatcher) : RequestQueueBatcher :=
  signal (set_queue b priority
                    (fold_left (fun q it => q ++ [it]) cargo (queue b priority))).

Definition empty (b : RequestQueueBatcher) (priority : menuPriority) : bool :=
  match queue b priority with [] => true | _ :: _ => false end.

Definition size (b : RequestQueueBatcher) (priority : menuPriority) : nat :=
  List.length (queue b priority).

(** One iteration of the loop of [clear()]: under [lock[prio]], pop until
    the queue is empty. *)
Definition clearQueue (prio : menuPriority) (b : RequestQueueBatcher)
  : RequestQueueBatcher :=
  set_queue b prio [].

Definition clear (b : RequestQueueBatcher) : RequestQueueBatcher :=
  fold_left (fun b prio => clearQueue prio b) descending b.

(** [setParams(maxRequestsPerBatch, minHoldOff, maxHoldOff)]: the
    assignment to [holdOffVar] is under [if (maxRequestsPerBatch)] and has
    no [else]. *)
Definition setParams (maxRequestsPerBatch minHoldOff maxHoldOff : N)
           (b : RequestQueueBatcher) : RequestQueueBatcher :=
  mkBatcher
    (queue b)
    maxRequestsPerBatch
    (if (maxRequestsPerBatch =? 0)%N then holdOffVar b
     else if (maxHoldOff =? 0)%N then d0
     else ddiv (dsub (double_of_unsigned maxHoldOff)
                     (double_of_unsigned minHoldOff))
               (dmul (double_of_unsigned maxRequestsPerBatch) d1e3))
    (ddiv (double_of_unsigned minHoldOff) d1e3)
    (workToDo b) (workerShutdown b).

Definition maxRequests (b : RequestQueueBatcher) : N := maxBatchSize b.

Definition minHoldOff (b : RequestQueueBatcher) : option N :=
  unsigned_of_double (dmul (holdOffFix b) d1e3).

Definition maxHoldOff (b : RequestQueueBatcher) : option N :=
  unsigned_of_double
    (dmul (dadd (holdOffFix b)
                (dmul (holdOffVar b) (double_of_unsigned (maxBatchSize b))))
          d1e3).

(** The state the constructor leaves (worker not yet woken): the member
    initialisers, then [setParams]. *)
Definition construct (maxRequestsPerBatch minHoldOff maxHoldOff : N)
  : RequestQueueBatcher :=
  setParams maxRequestsPerBatch minHoldOff maxHoldOff
            (mkBatcher (fun _ => []) 0 d0 d0 false false).

(** The doubles of the parameter block are of the kind [setParams] computes
    from [unsigned int] arguments: a finite [holdOffVar], and a
    [holdOffFix] that is not the negative zero. *)
Definition params_sound (b : RequestQueueBatcher) : Prop :=
  dfinite (holdOffVar b) = true /\ dnegzero (holdOffFix b) = false.

End Batcher.

(** ** The worker thread *)

Section Worker.

Variable T : Type.

Local Abbreviation Batcher := (RequestQueueBatcher T).

(** What the other threads can do to the object between two steps of the
    worker.  Each is one critical section of the source: a push under
    [lock[priority]], one iteration of [clear()] under [lock[prio]],
    [setParams] under [paramLock], and the destructor's request to stop. *)
Inductive Action : Type :=
| DoPush (cargo : T) (priority : menuPriority)
| DoPushVector (cargo : list T) (priority : menuPriority)
| DoClearQueue (prio : menuPriority)
| DoSetParams (maxRequestsPerBatch minHoldOff maxHoldOff : N)
| DoShutdown.

Definition act (b : Batcher) (a : Action) : Batcher :=
  match a with
  | DoPush cargo priority => pushRequest cargo priority b
  | DoPushVector cargo priority => pushRequests cargo priority b
  | DoClearQueue prio => clearQueue prio b
  | DoSetParams m lo hi => setParams m lo hi b
  | DoShutdown =>
      signal (mkBatcher (queue b) (maxBatchSize b) (holdOffVar b)
                        (holdOffFix b) (workToDo b) true)
  end.

Definition interfere (acts : list Action) (b : Batcher) : Batcher :=
  fold_left act acts b.

(** The actions of the other threads, placed at the points of one loop
    iteration of [run] where the worker holds no lock. *)
Record Interleaving : Type := mkInterleaving {
  before_wait : list Action;
  before_max : list Action;
  before_lock : menuPriority -> list Action;
  before_check : menuPriority -> list Action;
  before_hold : list Action
}.

(** No other thread touches the object. *)
Definition quiet : Interleaving :=
  mkInterleaving [] [] (fun _ => []) (fun _ => []) [].

(** [!max || batch.size() < max] *)
Definition room (max : N) (batch : list T) : bool :=
  (max =? 0)%N || (N.of_nat (List.length batch) <? max)%N.

(** The inner loop, under [lock[prio]]:
    [while (queue[prio].size() && (!max || batch.size() < max))]
    moves the front of the queue to the back of the batch.
    Returns what is left of the queue, and the batch. *)
Fixpoint drain (max : N) (q batch : list T) : list T * list T :=
  match q with
  | [] => (q, batch)
  | front :: q' =>
      if room max batch then drain max q' (batch ++ [front])
      else (q, batch)
  end.

(** The body of the [for] loop at one priority: the guarded, locked drain,
    then the unlocked test [if (!queue[prio].empty()) workToDo.signal()]. *)
Definition collect (max : N) (il : Interleaving)
           (sb : Batcher * list T) (prio : menuPriority) : Batcher * list T :=
  let '(b, batch) := sb in
  let b := interfere (before_lock il prio) b in
  let '(b, batch) :=
    if room max batch then
      let '(q, batch') := drain max (queue b prio) batch in
      (set_queue b prio q, batch')
    else (b, batch) in
  let b := interfere (before_check il prio) b in
  let b := if negb (empty b prio) then signal b else b in
  (b, batch).

(** What one pass through the scope of the cargo vector computes: the
    local [max], the batch, the local [holdOff], and the object when the
    second parameter guard is released. *)
Record Cycle : Type := mkCycle {
  max_used : N;
  batch : list T;
  holdOff : double;
  after : Batcher
}.

Definition cycle (il : Interleaving) (b : Batcher) : Cycle :=
  let b := interfere (before_max il) b in
  let max := maxBatchSize b in
  let '(b, batch) := fold_left (collect max il) descending (b, []) in
  (* consumer.processRequests(batch) runs here when the batch is not empty *)
  let b := interfere (before_hold il) b in
  let holdOff :=
    dadd (holdOffFix b)
         (dmul (holdOffVar b) (double_of_unsigned (N.of_nat (List.length batch)))) in
  mkCycle max batch holdOff b.

(** The calls the worker makes to the outside. *)
Inductive Event : Type :=
| ProcessRequests (batch : list T)
| Sleep (seconds : double).

(** [if (!batch.empty()) consumer.processRequests(batch);] *)
Definition delivered (c : Cycle) : list Event :=
  match batch c with
  | [] => []
  | _ :: _ => [ProcessRequests (batch c)]
  end.

(** [if (holdOff > 0.0) sleep(holdOff);] *)
Definition slept (c : Cycle) : list Event :=
  if dgt (holdOff c) d0 then [Sleep (holdOff c)] else [].

Definition events (c : Cycle) : list Event := delivered c ++ slept c.

(** One iteration of [do { ... } while (true)]. *)
Inductive Outcome : Type :=
| Blocked            (* [workToDo.wait()] does not return *)
| Exited             (* [if (workerShutdown) break;] *)
| Cycled (c : Cycle).

Definition iteration (il : Interleaving) (b : Batcher) : Outcome * Batcher :=
  let b := interfere (before_wait il) b in
  if workToDo b then
    let b := wait b in
    if workerShutdown b then (Exited, b)
    else let c := cycle il b in (Cycled c, after c)
  else (Blocked, b).

(** [run], one interleaving per loop iteration; a blocked worker stays in
    [wait()] and looks again after the next actions of the others. *)
Fixpoint run (ils : list Interleaving) (b : Batcher) : list Event * Batcher :=
  match ils with
  | [] => ([], b)
  | il :: ils' =>
      match iteration il b with
      | (Cycled c, b') => let '(ev, b'') := run ils' b' in (events c ++ ev, b'')
      | (Blocked, b') => run ils' b'
      | (Exited, b') => ([], b')
      end
  end.

(** *** Observation points used in the statements *)

(** The priorities the loop has been through when it reaches [prio]. *)
Definition higher (prio : menuPriority) : list menuPriority :=
  match prio with
  | menuPriorityHIGH => []
  | menuPriorityMID => [menuPriorityHIGH]
  | menuPriorityLOW => [menuPriorityHIGH; menuPriorityMID]
  end.

(** The object and the batch when the loop of [cycle il b] reaches [prio]. *)
Definition reaching (il : Interleaving) (b : Batcher) (prio : menuPriority)
  : Batcher * list T :=
  let b := interfere (before_max il) b in
  fold_left (collect (maxBatchSize b) il) (higher prio) (b, []).

(** ... and after the body of the loop at [prio]. *)
Definition leaving (il : Interleaving) (b : Batcher) (prio : menuPriority)
  : Batcher * list T :=
  collect (maxBatchSize (interfere (before_max il) b)) il (reaching il b prio) prio.

(** [queue[prio]] as the worker finds it at the point where it takes
    [lock[prio]]. *)
Definition found (il : Interleaving) (b : Batcher) (prio : menuPriority)
  : list T :=
  queue (interfere (before_lock il prio) (fst (reaching il b prio))) prio.

(** What the test [!queue[prio].empty()] of the loop body at [prio] sees. *)
Definition residue_seen (il : Interleaving) (b : Batcher) (prio : menuPriority)
  : bool :=
  let '(b', batch) := reaching il b prio in
  let max := maxBatchSize (interfere (before_max il) b) in
  let b' := interfere (before_lock il prio) b' in
  let b' :=
    if room max batch
    then set_queue b' prio (fst (drain max (queue b' prio) batch))
    else b' in
  negb (empty (interfere (before_check il prio) b') prio).

(** The items a list of actions pushes to [queue[prio]], in order. *)
Fixpoint pushed (prio : menuPriority) (acts : list Action) : list T :=
  match acts with
  | [] => []
  | DoPush cargo p :: acts' =>
      if menuPriority_eqb p prio then cargo :: pushed prio acts'
      else pushed prio acts'
  | DoPushVector cargo p :: acts' =>
      if menuPriority_eqb p prio then cargo ++ pushed prio acts'
      else pushed prio acts'
  | _ :: acts' => pushed prio acts'
  end.

Definition is_push (a : Action) : bool :=
  match a with
  | DoPush _ _ | DoPushVector _ _ => true
  | _ => false
  end.

Definition is_setParams (a : Action) : bool :=
  match a with
  | DoSetParams _ _ _ => true
  | _ => false
  end.

(** The parameter block, as one value. *)
Record Params : Type := mkParams {
  p_maxBatchSize : N;
  p_holdOffVar : double;
  p_holdOffFix : double
}.

Definition params (b : Batcher) : Params :=
  mkParams (maxBatchSize b) (holdOffVar b) (holdOffFix b).

(** The block under the first parameter guard ([max = maxBatchSize]) and
    under the second ([holdOff = holdOffFix + holdOffVar * batch.size()])
    of [cycle il b]. *)
Definition params_at_max (il : Interleaving) (b : Batcher) : Params :=
  params (interfere (before_max il) b).

Definition params_at_hold (il : Interleaving) (b : Batcher) : Params :=
  params (after (cycle il b)).

(** The hold-off a parameter block gives for a batch of [n] items. *)
Definition holdOff_of (P : Params) (n : nat) : double :=
  dadd (p_holdOffFix P)
       (dmul (p_holdOffVar P) (double_of_unsigned (N.of_nat n))).

(** The arguments of the [setParams] calls of the other threads are
    [unsigned int]s. *)
Definition action_ok (a : Action) : Prop :=
  match a with
  | DoSetParams m lo hi => unsigned_int m /\ unsigned_int lo /\ unsigned_int hi
  | _ => True
  end.

Definition interleaving_ok (il : Interleaving) : Prop :=
  Forall action_ok (before_wait il) /\
  Forall action_ok (before_max il) /\
  (forall prio, Forall action_ok (before_lock il prio)) /\
  (forall prio, Forall action_ok (before_check il prio)) /\
  Forall action_ok (before_hold il).

(** A pass uses one snapshot of the parameter block: there is a block,
    among those the worker had under [paramLock], that gives both the
    [max] the pass used and the hold-off it computed. *)
Definition one_snapshot (il : Interleaving) (b : Batcher) : Prop :=
  exists P : Params,
    (P = params_at_max il b \/ P = params_at_hold il b) /\
    max_used (cycle il b) = p_maxBatchSize P /\
    holdOff (cycle il b) = holdOff_of P (List.length (batch (cycle il b))).

Definition total (b : Batcher) : nat :=
  size b menuPriorityHIGH + size b menuPriorityMID + size b menuPriorityLOW.

(** Everything that is queued. *)
Definition queued (b : Batcher) : list T :=
  queue b menuPriorityHIGH ++ queue b menuPriorityMID ++ queue b menuPriorityLOW.

(** The items handed to the consumer by a sequence of events, in order. *)
Fixpoint handed (ev : list Event) : list T :=
  match ev with
  | [] => []
  | ProcessRequests batch :: ev' => batch ++ handed ev'
  | Sleep _ :: ev' => handed ev'
  end.

End Worker.

Arguments quiet {T}.
Arguments DoClearQueue {T} prio.
Arguments DoSetParams {T} maxRequestsPerBatch minHoldOff maxHoldOff.
Arguments DoShutdown {T}.
Arguments Sleep {T} seconds.
Arguments Blocked {T}.
Arguments Exited {T}.

(** ** Further observations on a pass *)

Section Observations.

Variable T : Type.

Definition is_clear (a : Action T) : bool :=
  match a with
  | DoClearQueue _ => true
  | _ => false
  end.

(** No action of [acts] is an iteration of [clear()]. *)
Definition no_clear (acts : list (Action T)) : bool :=
  forallb (fun a => negb (is_clear a)) acts.

(** Everything the other threads do during one pass, in order of time. *)
Definition all_actions (il : Interleaving T) : list (Action T) :=
  before_max il
  ++ before_lock il menuPriorityHIGH ++ before_check il menuPriorityHIGH
  ++ before_lock il menuPriorityMID ++ before_check il menuPriorityMID
  ++ before_lock il menuPriorityLOW ++ before_check il menuPriorityLOW
  ++ before_hold il.

(** The number of items the inner loop moves from a queue [q] to a batch
    [bt]: all of them without a limit, and what the batch still lacks to
    [max] otherwise. *)
Definition allowance (max : N) (bt q : list T) : nat :=
  if (max =? 0)%N then List.length q else N.to_nat max - List.length bt.

(** The number of items one pass may take out of [n]. *)
Definition cap (max : N) (n : nat) : nat :=
  if (max =? 0)%N then n else N.to_nat max.

(** [clear()] as the sequence of its critical sections. *)
Definition clear_actions : list (Action T) :=
  map (@DoClearQueue T) descending.

(** The same interleaving with more actions before the second parameter
    guard, that is, while the consumer processes the batch. *)
Definition then_before_hold (il : Interleaving T) (acts : list (Action T))
  : Interleaving T :=
  mkInterleaving (before_wait il) (before_max il) (before_lock il)
                 (before_check il) (before_hold il ++ acts).

(** [cargo] pushed by one call of the single-request overload each. *)
Definition push_each (cargo : list T) (priority : menuPriority)
           (b : RequestQueueBatcher T) : RequestQueueBatcher T :=
  fold_left (fun b c => pushRequest c priority b) cargo b.

End Observations.

Arguments clear_actions {T}.

(** [f] holds on the [n] numbers from [start] on. *)
Fixpoint all_from (f : N -> bool) (start : N) (n : nat) : bool :=
  match n with
  | O => true
  | S n' => f start && all_from f (N.succ start) n'
  end.

(** [minHoldOff()] gives back the [m] that [setParams] was called with. *)
Definition minHoldOff_exact (m : N) : bool :=
  match minHoldOff (construct unit 1 m 0) with
  | Some r => (r =? m)%N
  | None => false
  end.

(** ... or one millisecond less. *)
Definition minHoldOff_near (m : N) : bool :=
  match minHoldOff (construct unit 1 m 0) with
  | Some r => ((r =? m) || (r + 1 =? m))%N
  | None => false
  end.

(** ** The link-string splitter *)

Definition backslash : ascii := "\"%char.

(** Modelled from the spec: [defaultElementDelimiter] is declared in
    [linkParser.h], which is not among the sources; the delimiter defaults
    to the dot. *)
Definition defaultElementDelimiter : ascii := "."%char.

Definition add_char (token : string) (c : ascii) : string :=
  (token ++ String c EmptyString)%string.

(** Modelled from the spec: [splitString] is declared in [linkParser.h] and
    defined in [linkParser.cpp]; neither is among the sources, only its test
    corpus [LinkParserTest.cpp] is.  The scan is the one the spec describes:
    left to right, accumulating a current token; an unescaped delimiter
    finalizes the token, possibly empty, and starts a new one; at the end of
    the string the current token is emitted.  For the escape the spec defers
    to the expectations of the corpus, which fix it as follows: a backslash
    immediately before a delimiter makes the delimiter part of the token and
    is dropped; any other backslash is an ordinary character. *)
Fixpoint scan (delim : ascii) (str token : string) : list string :=
  match str with
  | EmptyString => [token]
  | String c rest =>
      if Ascii.eqb c backslash then
        match rest with
        | String d rest' =>
            if Ascii.eqb d delim then scan delim rest' (add_char token delim)
            else scan delim rest (add_char token c)
        | EmptyString => [add_char token c]
        end
      else if Ascii.eqb c delim then token :: scan delim rest EmptyString
      else scan delim rest (add_char token c)
  end.

Definition splitString (str : string) (delim : ascii) : list string :=
  scan delim str EmptyString.

(** The same scan with the escape as the prose of the spec words it: the
    character after a backslash, whatever it is, is appended to the token
    and the backslash is not.  (A backslash that ends the string is left
    open by the spec; it is dropped here.) *)
Fixpoint scan_as_worded (delim : ascii) (str token : string) : list string :=
  match str with
  | EmptyString => [token]
  | String c rest =>
      if Ascii.eqb c backslash then
        match rest with
        | String d rest' => scan_as_worded delim rest' (add_char token d)
        | EmptyString => [token]
        end
      else if Ascii.eqb c delim then token :: scan_as_worded delim rest EmptyString
      else scan_as_worded delim rest (add_char token c)
  end.

Definition splitString_as_worded (str : string) (delim : ascii) : list string :=
  scan_as_worded delim str EmptyString.

(** The finished tokens and the current token after scanning a prefix. *)
Fixpoint scan_prefix (delim : ascii) (str token : string)
  : list string * string :=
  match str with
  | EmptyString => ([], token)
  | String c rest =>
      if Ascii.eqb c backslash then
        match rest with
        | String d rest' =>
            if Ascii.eqb d delim then scan_prefix delim rest' (add_char token delim)
            else scan_prefix delim rest (add_char token c)
        | EmptyString => ([], add_char token c)
        end
      else if Ascii.eqb c delim then
        let '(done, cur) := scan_prefix delim rest EmptyString in
        (token :: done, cur)
      else scan_prefix delim rest (add_char token c)
  end.

(** The corpus of [LinkParserTest.cpp]: the string that is split, with the
    default delimiter, and the list the test expects. *)
Definition LinkParserTest : list (string * list string) :=
  [ (* splitString_empty *)
    (EmptyString, [EmptyString]);
    (* splitString_justOneDelimiter *)
    ("."%string, [EmptyString; EmptyString]);
    (* splitString_justTwoDelimiters *)
    (".."%string, [EmptyString; EmptyString; EmptyString]);
    (* splitString_oneElem *)
    ("one"%string, ["one"%string]);
    (* splitString_twoElem *)
    ("one.two"%string, ["one"%string; "two"%string]);
    (* splitString_threeElem *)
    ("one.two.three"%string, ["one"%string; "two"%string; "three"%string]);
    (* splitString_escapedDelimiter *)
    ("one\.two"%string, ["one.two"%string]);
    (* splitString_twoEscapedDelimiters *)
    ("one\.two\.three"%string, ["one.two.three"%string]);
    (* splitString_seriesOfEscapedDelimiters *)
    ("one\.\.\.two\.\.three"%string, ["one...two..three"%string]);
    (* splitString_seriesOfEscapedBackslashesAndDelimiters *)
    ("one\.\.\\.two\.\.\three"%string, ["one..\.two..\three"%string]);
    (* splitString_startsWithDelimiter *)
    (".two.three"%string, [EmptyString; "two"%string; "three"%string]);
    (* splitString_startsWithEscapedDelimiter *)
    ("\..two.three"%string, ["."%string; "two"%string; "three"%string]);
    (* splitString_startsWithTwoDelimiters *)
    ("..three"%string, [EmptyString; EmptyString; "three"%string]);
    (* splitString_endsWithDelimiter *)
    ("one.two."%string, ["one"%string; "two"%string; EmptyString]);
    (* splitString_endsWithTwoDelimiters *)
    ("one.."%string, ["one"%string; EmptyString; EmptyString]) ].

(** The input of the test [splitString_seriesOfEscapedBackslashesAndDelimiters]. *)
Definition escaped_backslashes_input : string := "one\.\.\\.two\.\.\three"%string.

(** The escape as the prose words it, at its smallest instance: a backslash
    followed by a character [c] gives the one token [c], whatever [c] and
    the delimiter are. *)
Definition escapes_any_character (split : string -> ascii -> list string) : Prop :=
  forall c delim : ascii,
    split (String backslash (String c EmptyString)) delim = [String c EmptyString].

(** The outputs listed for the default delimiter, for an input of the last
    line that is [len] characters long. *)
Definition corpus_outputs (split : string -> ascii -> list string) (len : nat)
  : Prop :=
  split EmptyString defaultElementDelimiter = [EmptyString] /\
  split "."%string defaultElementDelimiter = [EmptyString; EmptyString] /\
  split ".."%string defaultElementDelimiter = [EmptyString; EmptyString; EmptyString] /\
  split "one.two.three"%string defaultElementDelimiter
  = ["one"%string; "two"%string; "three"%string] /\
  split "one\.two"%string defaultElementDelimiter = ["one.two"%string] /\
  split ".two.three"%string defaultElementDelimiter
  = [EmptyString; "two"%string; "three"%string] /\
  split "one.two."%string defaultElementDelimiter
  = ["one"%string; "two"%string; EmptyString] /\
  String.length escaped_backslashes_input = len /\
  split escaped_backslashes_input defaultElementDelimiter
  = ["one..\.two..\three"%string].

Definition passes (split : string -> ascii -> list string)
           (test : string * list string) : bool :=
  if list_eq_dec string_dec (split (fst test) defaultElementDelimiter) (snd test)
  then true else false.

(** ** Concrete inputs *)

(** Five requests of low priority pushed at once to a batcher constructed
    with [maxRequestsPerBatch = 2] and no hold-off, and the worker woken. *)
Definition five_low_cap_two : RequestQueueBatcher nat :=
  wait (pushRequests [1; 2; 3; 4; 5] menuPriorityLOW (construct nat 2 0 0)).

(** A batcher constructed with [(10, 10, 100)], woken with nothing queued. *)
Definition idle_wake : RequestQueueBatcher nat :=
  wait (signal (construct nat 10 10 100)).

(** Three requests queued on a batcher constructed with [(10, 10, 100)];
    another thread calls [setParams(5, 20, 200)] while the consumer
    processes the batch, between the two parameter guards of the pass. *)
Definition three_low : RequestQueueBatcher nat :=
  wait (pushRequests [1; 2; 3] menuPriorityLOW (construct nat 10 10 100)).

Definition setParams_during_processing : Interleaving nat :=
  mkInterleaving [] [] (fun _ => []) (fun _ => []) [DoSetParams 5 20 200].

(** A request of high and one of mid priority on a batcher with
    [maxRequestsPerBatch = 1]; another high request is pushed before the
    second pass. *)
Definition high_then_mid : RequestQueueBatcher nat :=
  pushRequest 2 menuPriorityMID
              (pushRequest 1 menuPriorityHIGH (construct nat 1 0 0)).

Definition push_high_before_wait : Interleaving nat :=
  mkInterleaving [DoPush 3 menuPriorityHIGH] [] (fun _ => []) (fun _ => []) [].

(** Five requests of low priority pushed at once to a batcher constructed
    with [maxRequestsPerBatch = 2] and no hold-off; the worker still
    waits. *)
Definition five_low_pending : RequestQueueBatcher nat :=
  pushRequests [1; 2; 3; 4; 5] menuPriorityLOW (construct nat 2 0 0).

(** One request on a batcher without a batch limit, and the worker woken. *)
Definition one_high_unlimited : RequestQueueBatcher nat :=
  pushRequest 1 menuPriorityHIGH (construct nat 0 0 0).

(** Pushes by other threads all along a pass: one before the worker reads
    [max], one each time before it takes the lock of a queue, a vector
    while the consumer processes the batch. *)
Definition pushes_along_the_pass : Interleaving nat :=
  mkInterleaving [] [DoPush 7 menuPriorityHIGH]
                 (fun _ => [DoPush 9 menuPriorityLOW]) (fun _ => [])
                 [DoPushVector [10; 11] menuPriorityMID].

(** The destructor runs while the consumer processes the batch. *)
Definition shutdown_during_processing : Interleaving nat :=
  mkInterleaving [] [] (fun _ => []) (fun _ => []) [DoShutdown].

(* ================================================================== *)
(** * Part II: properties                                              *)
(* ================================================================== *)

(** ** The inner loop *)

Section DrainFacts.

Variable T : Type.
Implicit Types (q bt : list T) (max : N).

(** The loop moves a prefix of the queue, in order, behind the batch. *)
Lemma drain_takes : forall max q bt,
  exists taken,
    snd (drain max q bt) = bt ++ taken /\ q = taken ++ fst (drain max q bt).
Proof.
  intros max q; induction q as [|front q IH]; intros bt; simpl.
  - exists []. now rewrite app_nil_r.
  - destruct (room max bt).
    + destruct (IH (bt ++ [front])) as (taken & Hb & Hq).
      exists (front :: taken). rewrite Hb, <- app_assoc. simpl.
      now rewrite <- Hq.
    + exists []. now rewrite app_nil_r.
Qed.

Lemma room_false : forall max bt,
  room max bt = false <-> (max <> 0 /\ max <= N.of_nat (List.length bt))%N.
Proof.
  intros max bt. unfold room. rewrite orb_false_iff, N.eqb_neq, N.ltb_ge.
  tauto.
Qed.

(** With a full batch the loop does not pop anything. *)
Lemma drain_full : forall max q bt,
  room max bt = false -> drain max q bt = (q, bt).
Proof. intros max [|front q] bt H; simpl; [|rewrite H]; reflexivity. Qed.

(** The loop never grows a batch beyond a non-zero [max]. *)
Lemma drain_bound : forall max q bt,
  (max <> 0)%N ->
  (N.of_nat (List.length bt) <= max)%N ->
  (N.of_nat (List.length (snd (drain max q bt))) <= max)%N.
Proof.
  intros max q; induction q as [|front q IH]; intros bt Hmax Hbt; simpl; auto.
  destruct (room max bt) eqn:Hroom; simpl; auto.
  apply IH; auto. unfold room in Hroom.
  apply orb_true_iff in Hroom. destruct Hroom as [H|H].
  - apply N.eqb_eq in H. contradiction.
  - apply N.ltb_lt in H. rewrite length_app. simpl. lia.
Qed.

(** When the loop ends, the queue is empty or the batch is full. *)
Lemma drain_stops : forall max q bt,
  fst (drain max q bt) = [] \/ room max (snd (drain max q bt)) = false.
Proof.
  intros max q; induction q as [|front q IH]; intros bt; simpl; auto.
  destruct (room max bt) eqn:Hroom; simpl; auto.
Qed.

(** With room in the batch and a non-empty queue, the loop pops. *)
Lemma drain_progress : forall max q bt,
  room max bt = true -> q <> [] ->
  List.length bt < List.length (snd (drain max q bt)).
Proof.
  intros max [|front q] bt Hroom Hq; [congruence|]. simpl. rewrite Hroom.
  destruct (drain_takes max q (bt ++ [front])) as (taken & Hb & _).
  rewrite Hb, !length_app. simpl. lia.
Qed.

End DrainFacts.

(** ** Actions of the other threads *)

Section ActionFacts.

Variable T : Type.
Implicit Types (b : RequestQueueBatcher T) (acts : list (Action T)).

Lemma queue_set_queue : forall b p q p',
  queue (set_queue b p q) p' = if menuPriority_eqb p p' then q else queue b p'.
Proof. reflexivity. Qed.

Lemma menuPriority_eqb_eq : forall p q, menuPriority_eqb p q = true <-> p = q.
Proof. intros [] []; simpl; split; congruence. Qed.

Lemma menuPriority_eqb_refl : forall p, menuPriority_eqb p p = true.
Proof. intros []; reflexivity. Qed.

Lemma fold_push : forall (cargo q : list T),
  fold_left (fun q it => q ++ [it]) cargo q = q ++ cargo.
Proof.
  induction cargo as [|it cargo IH]; intros q; simpl.
  - now rewrite app_nil_r.
  - rewrite IH, <- app_assoc. reflexivity.
Qed.

(** Both overloads of [pushRequest] append at the back of their queue and
    leave the other queues alone. *)
Lemma pushRequest_queue : forall cargo p b p',
  queue (pushRequest cargo p b) p' =
  if menuPriority_eqb p p' then queue b p' ++ [cargo] else queue b p'.
Proof.
  intros cargo p b p'. simpl. destruct (menuPriority_eqb p p') eqn:E; auto.
  apply menuPriority_eqb_eq in E. now subst.
Qed.

Lemma pushRequests_queue : forall cargo p b p',
  queue (pushRequests cargo p b) p' =
  if menuPriority_eqb p p' then queue b p' ++ cargo else queue b p'.
Proof.
  intros cargo p b p'. simpl. rewrite fold_push.
  destruct (menuPriority_eqb p p') eqn:E; auto.
  apply menuPriority_eqb_eq in E. now subst.
Qed.

(** Nothing the other threads do takes the event back. *)
Lemma act_keeps_signal : forall a b, workToDo b = true -> workToDo (act b a) = true.
Proof. intros [] b H; simpl; auto. Qed.

Lemma interfere_keeps_signal : forall acts b,
  workToDo b = true -> workToDo (interfere acts b) = true.
Proof.
  induction acts as [|a acts IH]; intros b H; simpl; auto.
  apply IH, act_keeps_signal, H.
Qed.

(** Pushes alone extend every queue by what they push to it, in order. *)
Lemma interfere_pushes : forall acts b p,
  forallb (@is_push T) acts = true ->
  queue (interfere acts b) p = queue b p ++ pushed p acts.
Proof.
  induction acts as [|a acts IH]; intros b p H.
  - simpl. now rewrite app_nil_r.
  - simpl in H. apply andb_true_iff in H. destruct H as [Ha H].
    change (interfere (a :: acts) b) with (interfere acts (act b a)).
    rewrite (IH _ p H).
    destruct a; simpl in Ha; try discriminate; simpl pushed.
    + change (act b (DoPush cargo priority)) with (pushRequest cargo priority b).
      rewrite pushRequest_queue.
      destruct (menuPriority_eqb priority p); auto.
      now rewrite <- app_assoc.
    + change (act b (DoPushVector cargo priority)) with (pushRequests cargo priority b).
      rewrite pushRequests_queue.
      destruct (menuPriority_eqb priority p); auto.
      now rewrite <- app_assoc.
Qed.

End ActionFacts.

(** ** One pass of the worker *)

Section CycleFacts.

Variable T : Type.
Implicit Types (b : RequestQueueBatcher T) (il : Interleaving T)
         (bt : list T) (prio : menuPriority).

Lemma collect_snd : forall max il b bt prio,
  snd (collect max il (b, bt) prio) =
  if room max bt
  then snd (drain max (queue (interfere (before_lock il prio) b) prio) bt)
  else bt.
Proof.
  intros. unfold collect. destruct (room max bt); [|reflexivity].
  destruct (drain _ _ _); reflexivity.
Qed.

(** The state the loop body leaves: the queue cut by the drain, the
    actions before the test, and the signal when the test sees items. *)
Lemma collect_fst : forall max il b bt prio,
  fst (collect max il (b, bt) prio) =
  let b1 := interfere (before_lock il prio) b in
  let b2 := if room max bt
            then set_queue b1 prio (fst (drain max (queue b1 prio) bt))
            else b1 in
  let b3 := interfere (before_check il prio) b2 in
  if negb (empty b3 prio) then signal b3 else b3.
Proof.
  intros. unfold collect. destruct (room max bt); [|reflexivity].
  destruct (drain _ _ _); reflexivity.
Qed.

Lemma collect_takes : forall max il b bt prio,
  exists taken rest,
    snd (collect max il (b, bt) prio) = bt ++ taken /\
    queue (interfere (before_lock il prio) b) prio = taken ++ rest.
Proof.
  intros. rewrite collect_snd. destruct (room max bt).
  - destruct (drain_takes max (queue (interfere (before_lock il prio) b) prio) bt)
      as (taken & Hb & Hq).
    exists taken, (fst (drain max (queue (interfere (before_lock il prio) b) prio) bt)).
    auto.
  - exists [], (queue (interfere (before_lock il prio) b) prio).
    now rewrite app_nil_r.
Qed.

Lemma collect_bound : forall max il b bt prio,
  (max <> 0)%N ->
  (N.of_nat (List.length bt) <= max)%N ->
  (N.of_nat (List.length (snd (collect max il (b, bt) prio))) <= max)%N.
Proof.
  intros. rewrite collect_snd. destruct (room max bt); auto.
  now apply drain_bound.
Qed.

Lemma cycle_max : forall il b,
  max_used (cycle il b) = maxBatchSize (interfere (before_max il) b).
Proof. intros. unfold cycle. destruct (fold_left _ _ _). reflexivity. Qed.

Lemma leaving_LOW : forall il b,
  leaving il b menuPriorityLOW =
  fold_left (collect (maxBatchSize (interfere (before_max il) b)) il)
            descending (interfere (before_max il) b, []).
Proof. reflexivity. Qed.

Lemma cycle_batch : forall il b,
  batch (cycle il b) = snd (leaving il b menuPriorityLOW).
Proof.
  intros. rewrite leaving_LOW. unfold cycle.
  destruct (fold_left _ _ _). reflexivity.
Qed.

Lemma cycle_after : forall il b,
  after (cycle il b) =
  interfere (before_hold il) (fst (leaving il b menuPriorityLOW)).
Proof.
  intros. rewrite leaving_LOW. unfold cycle.
  destruct (fold_left _ _ _). reflexivity.
Qed.

Lemma cycle_holdOff : forall il b,
  holdOff (cycle il b) =
  holdOff_of (params (after (cycle il b))) (List.length (batch (cycle il b))).
Proof. intros. unfold cycle. destruct (fold_left _ _ _). reflexivity. Qed.

Lemma reaching_HIGH : forall il b,
  reaching il b menuPriorityHIGH = (interfere (before_max il) b, []).
Proof. reflexivity. Qed.

Lemma reaching_MID : forall il b,
  reaching il b menuPriorityMID = leaving il b menuPriorityHIGH.
Proof. reflexivity. Qed.

Lemma reaching_LOW : forall il b,
  reaching il b menuPriorityLOW = leaving il b menuPriorityMID.
Proof. reflexivity. Qed.

Lemma leaving_takes : forall il b prio,
  exists taken rest,
    snd (leaving il b prio) = snd (reaching il b prio) ++ taken /\
    found il b prio = taken ++ rest.
Proof.
  intros. unfold leaving, found.
  destruct (reaching il b prio) as [b' bt]. apply collect_takes.
Qed.

Lemma leaving_bound : forall il b prio,
  (max_used (cycle il b) <> 0)%N ->
  (N.of_nat (List.length (snd (leaving il b prio))) <= max_used (cycle il b))%N.
Proof.
  intros il b prio Hmax. rewrite cycle_max in *.
  assert (step : forall sb p,
             (N.of_nat (List.length (snd sb)) <= maxBatchSize (interfere (before_max il) b))%N ->
             (N.of_nat (List.length (snd (collect (maxBatchSize (interfere (before_max il) b)) il sb p)))
              <= maxBatchSize (interfere (before_max il) b))%N).
  { intros [b' bt] p Hle. now apply collect_bound. }
  assert (start : (N.of_nat (@List.length T []) <= maxBatchSize (interfere (before_max il) b))%N)
    by (simpl; lia).
  unfold leaving, reaching.
  destruct prio; unfold higher; cbn [fold_left]; repeat apply step; exact start.
Qed.

Lemma batch_parts : forall il b,
  exists high mid low,
    batch (cycle il b) = high ++ mid ++ low /\
    (exists rest, found il b menuPriorityHIGH = high ++ rest) /\
    (exists rest, found il b menuPriorityMID = mid ++ rest) /\
    (exists rest, found il b menuPriorityLOW = low ++ rest).
Proof.
  intros il b.
  destruct (leaving_takes il b menuPriorityHIGH) as (high & rh & Hh & Fh).
  destruct (leaving_takes il b menuPriorityMID) as (mid & rm & Hm & Fm).
  destruct (leaving_takes il b menuPriorityLOW) as (low & rl & Hl & Fl).
  exists high, mid, low. split.
  - rewrite cycle_batch, Hl, reaching_LOW, Hm, reaching_MID, Hh, reaching_HIGH.
    simpl. now rewrite app_assoc.
  - repeat split; eauto.
Qed.

(** C1. Every batch the worker hands to [processRequests] is a front part
    of the HIGH queue, followed by a front part of the MID queue, followed
    by a front part of the LOW queue, each queue taken as the worker finds
    it under its lock, whatever the other threads do in between; and both
    overloads of [pushRequest] enqueue at the back, so the order inside
    each part is the order of the pushes to that priority. *)
Theorem batch_in_priority_then_fifo_order : forall il b,
  (exists high mid low,
      batch (cycle il b) = high ++ mid ++ low /\
      (exists rest, found il b menuPriorityHIGH = high ++ rest) /\
      (exists rest, found il b menuPriorityMID = mid ++ rest) /\
      (exists rest, found il b menuPriorityLOW = low ++ rest)) /\
  (forall (cargo : T) priority b',
      queue (pushRequest cargo priority b') priority
      = queue b' priority ++ [cargo]) /\
  (forall (cargo : list T) priority b',
      queue (pushRequests cargo priority b') priority
      = queue b' priority ++ cargo).
Proof.
  intros il b. split; [|split].
  - apply batch_parts.
  - intros. rewrite pushRequest_queue. now rewrite menuPriority_eqb_refl.
  - intros. rewrite pushRequests_queue. now rewrite menuPriority_eqb_refl.
Qed.

(** C2. When the [max] read at the start of the pass is not zero, the
    batch handed over holds at most [max] items; the inner loop pops
    nothing once the batch holds [max] items, and a priority the loop
    reaches with such a batch gives nothing to it and loses nothing to
    the worker. *)
Theorem batch_size_capped : forall il b,
  max_used (cycle il b) <> 0%N ->
  (N.of_nat (List.length (batch (cycle il b))) <= max_used (cycle il b))%N /\
  (forall q bt,
      (max_used (cycle il b) <= N.of_nat (List.length bt))%N ->
      drain (max_used (cycle il b)) q bt = (q, bt)) /\
  (forall prio,
      (max_used (cycle il b) <= N.of_nat (List.length (snd (reaching il b prio))))%N ->
      snd (leaving il b prio) = snd (reaching il b prio) /\
      forall p,
        queue (fst (leaving il b prio)) p =
        queue (interfere (before_check il prio)
                         (interfere (before_lock il prio)
                                    (fst (reaching il b prio)))) p).
Proof.
  intros il b Hmax. split; [|split].
  - rewrite cycle_batch. now apply leaving_bound.
  - intros q bt Hfull. apply drain_full. apply room_false. auto.
  - intros prio Hfull. rewrite cycle_max in *. unfold leaving.
    destruct (reaching il b prio) as [b' bt]. simpl in Hfull.
    assert (Hroom : room (maxBatchSize (interfere (before_max il) b)) bt = false)
      by (apply room_false; auto).
    rewrite collect_snd, collect_fst, Hroom. simpl fst. simpl snd.
    split; [reflexivity|]. intros p.
    cbv zeta. destruct (negb _); reflexivity.
Qed.

End CycleFacts.

(** ** The wake event *)

Section SignalFacts.

Variable T : Type.
Implicit Types (b : RequestQueueBatcher T) (il : Interleaving T)
         (bt : list T) (prio : menuPriority).

Lemma collect_keeps_signal : forall max il sb prio,
  workToDo (fst sb) = true -> workToDo (fst (collect max il sb prio)) = true.
Proof.
  intros max il [b bt] prio H. rewrite collect_fst. cbv zeta.
  match goal with |- workToDo (if negb (empty ?b3 _) then _ else _) = _ =>
    assert (H3 : workToDo b3 = true) end.
  { apply interfere_keeps_signal. destruct (room max bt); simpl;
      apply interfere_keeps_signal; exact H. }
  destruct (negb _); [reflexivity | exact H3].
Qed.

(** The test after the drain signals the event when it sees items. *)
Lemma leaving_signalled : forall il b prio,
  residue_seen il b prio = true -> workToDo (fst (leaving il b prio)) = true.
Proof.
  intros il b prio. unfold residue_seen, leaving.
  destruct (reaching il b prio) as [b' bt]. rewrite collect_fst. cbv zeta.
  intros ->. reflexivity.
Qed.

Lemma after_signalled : forall il b prio,
  workToDo (fst (leaving il b prio)) = true ->
  workToDo (after (cycle il b)) = true.
Proof.
  intros il b prio H. rewrite cycle_after. apply interfere_keeps_signal.
  destruct prio; auto.
  - unfold leaving at 1. rewrite reaching_LOW. apply collect_keeps_signal, H.
  - unfold leaving at 1. rewrite reaching_LOW.
    apply collect_keeps_signal.
    unfold leaving at 1. rewrite reaching_MID. apply collect_keeps_signal, H.
Qed.

Lemma iteration_not_blocked : forall il b,
  workToDo b = true -> fst (iteration il b) <> Blocked.
Proof.
  intros il b H. unfold iteration.
  rewrite (interfere_keeps_signal _ _ H).
  destruct (workerShutdown _); simpl; discriminate.
Qed.

End SignalFacts.

(** ** Passes without interference *)

Section QuietFacts.

Variable T : Type.
Implicit Types (b : RequestQueueBatcher T) (bt : list T) (prio : menuPriority).

(** The loop body at one priority when no other thread interferes. *)
Lemma collect_quiet : forall max b bt prio,
  exists taken rest,
    queue b prio = taken ++ rest /\
    snd (collect max quiet (b, bt) prio) = bt ++ taken /\
    (forall p, queue (fst (collect max quiet (b, bt) prio)) p
               = if menuPriority_eqb prio p then rest else queue b p) /\
    (workToDo (fst (collect max quiet (b, bt) prio))
     = (workToDo b || nonempty rest)%bool) /\
    (workerShutdown (fst (collect max quiet (b, bt) prio)) = workerShutdown b) /\
    (params (fst (collect max quiet (b, bt) prio)) = params b) /\
    (bt ++ taken = [] -> rest = []).
Proof.
  intros max b bt prio. rewrite collect_snd, collect_fst. simpl interfere.
  cbv zeta. destruct (room max bt) eqn:Hroom.
  - destruct (drain_takes max (queue b prio) bt) as (taken & Hb & Hq).
    exists taken, (fst (drain max (queue b prio) bt)).
    split; [exact Hq|]. split; [exact Hb|].
    unfold empty. rewrite queue_set_queue, menuPriority_eqb_refl.
    assert (Hnil : bt ++ taken = [] -> fst (drain max (queue b prio) bt) = []).
    { intros E. destruct (queue b prio) as [|front q] eqn:Eq; [reflexivity|].
      exfalso.
      assert (Hp := drain_progress max (q := front :: q) bt Hroom ltac:(discriminate)).
      rewrite Hb, E in Hp. simpl in Hp. lia. }
    destruct (fst (drain max (queue b prio) bt)) as [|x rest'] eqn:Er; simpl;
      repeat split; auto; try (now rewrite orb_false_r); try (now rewrite orb_true_r).
  - exists [], (queue b prio). simpl. rewrite app_nil_r.
    assert (Hq : forall p, queue b p = if menuPriority_eqb prio p then queue b prio else queue b p).
    { intros p. destruct (menuPriority_eqb prio p) eqn:E; auto.
      apply menuPriority_eqb_eq in E. now subst. }
    assert (Hbt : bt <> []).
    { intros ->. unfold room in Hroom. simpl in Hroom.
      destruct max; simpl in Hroom; discriminate. }
    unfold empty.
    destruct (queue b prio) as [|x rest'] eqn:Er; simpl;
      repeat split; auto; try (now rewrite orb_false_r); try (now rewrite orb_true_r);
      try (intros p; destruct (menuPriority_eqb prio p) eqn:E; auto;
           apply menuPriority_eqb_eq in E; now subst).
    intros E. contradiction.
Qed.

Lemma total_queued : forall b, total b = List.length (queued b).
Proof. intros. unfold total, queued, size. rewrite !length_app. lia. Qed.

Lemma parts_permutation : forall (tH rH tM rM tL rL : list T),
  Permutation ((tH ++ tM ++ tL) ++ rH ++ rM ++ rL)
              ((tH ++ rH) ++ (tM ++ rM) ++ tL ++ rL).
Proof.
  intros. rewrite <- !app_assoc. apply Permutation_app_head.
  apply perm_trans with (tM ++ rH ++ rM ++ tL ++ rL);
    [|apply Permutation_app_swap_app].
  apply Permutation_app_head.
  apply perm_trans with (rH ++ tL ++ rM ++ rL);
    [apply Permutation_app_swap_app|].
  apply Permutation_app_head, Permutation_app_swap_app.
Qed.

(** A whole pass without interference: each queue gives a front part to
    the batch and keeps the rest; the event is signalled exactly when a
    rest is not empty (or it already was); an empty batch means that
    nothing was queued. *)
Lemma cycle_quiet : forall b,
  exists tH rH tM rM tL rL,
    (queue b menuPriorityHIGH = tH ++ rH /\
     queue b menuPriorityMID = tM ++ rM /\
     queue b menuPriorityLOW = tL ++ rL) /\
    (batch (cycle quiet b) = tH ++ tM ++ tL) /\
    (queue (after (cycle quiet b)) menuPriorityHIGH = rH /\
     queue (after (cycle quiet b)) menuPriorityMID = rM /\
     queue (after (cycle quiet b)) menuPriorityLOW = rL) /\
    (workToDo (after (cycle quiet b))
     = (workToDo b || nonempty rH || nonempty rM || nonempty rL)%bool) /\
    (workerShutdown (after (cycle quiet b)) = workerShutdown b) /\
    (params (after (cycle quiet b)) = params b) /\
    (batch (cycle quiet b) = [] -> rH = [] /\ rM = [] /\ rL = []).
Proof.
  intros b. rewrite cycle_batch, cycle_after.
  set (max := maxBatchSize b).
  change (leaving quiet b menuPriorityLOW)
    with (collect max quiet
            (collect max quiet (collect max quiet (b, []) menuPriorityHIGH)
                     menuPriorityMID) menuPriorityLOW).
  change (before_hold quiet) with (@nil (Action T)).
  cbn [interfere fold_left].
  destruct (collect_quiet max b [] menuPriorityHIGH)
    as (tH & rH & QH & BH & FH & WH & SH & PH & NH).
  destruct (collect max quiet (b, []) menuPriorityHIGH) as [b1 bt1].
  cbn [fst snd] in *.
  destruct (collect_quiet max b1 bt1 menuPriorityMID)
    as (tM & rM & QM & BM & FM & WM & SM & PM & NM).
  destruct (collect max quiet (b1, bt1) menuPriorityMID) as [b2 bt2].
  cbn [fst snd] in *.
  destruct (collect_quiet max b2 bt2 menuPriorityLOW)
    as (tL & rL & QL & BL & FL & WL & SL & PL & NL).
  destruct (collect max quiet (b2, bt2) menuPriorityLOW) as [b3 bt3].
  cbn [fst snd] in *.
  exists tH, rH, tM, rM, tL, rL.
  rewrite (FH menuPriorityMID) in QM. simpl in QM.
  rewrite (FM menuPriorityLOW), (FH menuPriorityLOW) in QL. simpl in QL.
  subst bt1 bt2 bt3. simpl app in *.
  repeat split; auto.
  - now rewrite <- app_assoc.
  - rewrite (FL menuPriorityHIGH), (FM menuPriorityHIGH), (FH menuPriorityHIGH).
    reflexivity.
  - rewrite (FL menuPriorityMID), (FM menuPriorityMID). reflexivity.
  - rewrite WL, WM, WH. reflexivity.
  - congruence.
  - congruence.
  - apply NH. destruct tH; [reflexivity|discriminate].
  - apply NM. destruct tH; [|discriminate]. destruct tM; [reflexivity|discriminate].
Qed.

Lemma handed_app : forall (e1 e2 : list (Event T)),
  handed (e1 ++ e2) = handed e1 ++ handed e2.
Proof.
  induction e1 as [|[bt|s] e1 IH]; intros e2; simpl; auto.
  now rewrite IH, app_assoc.
Qed.

Lemma handed_events : forall (c : Cycle T), handed (events c) = batch c.
Proof.
  intros c. unfold events, delivered, slept. rewrite handed_app.
  destruct (dgt (holdOff c) d0); destruct (batch c); simpl;
    now rewrite ?app_nil_r.
Qed.

(** Left alone, a worker whose event is signalled whenever something is
    queued hands over everything that is queued and empties the queues. *)
Lemma quiet_run_drains : forall n b,
  workerShutdown b = false ->
  (0 < total b -> workToDo b = true) ->
  total b <= n ->
  total (snd (run (repeat quiet n) b)) = 0 /\
  Permutation (handed (fst (run (repeat quiet n) b))) (queued b).
Proof.
  induction n as [|n IH]; intros b Hrun Hinv Hn.
  - simpl. split; [lia|].
    assert (E : queued b = []).
    { apply length_zero_iff_nil. rewrite <- total_queued. lia. }
    rewrite E. constructor.
  - cbn [repeat run]. unfold iteration. simpl interfere.
    destruct (workToDo b) eqn:Hw.
    + change (workerShutdown (wait b)) with (workerShutdown b). rewrite Hrun.
      destruct (cycle_quiet (wait b))
        as (tH & rH & tM & rM & tL & rL & (QH & QM & QL) & B & (AH & AM & AL)
            & W & S & _ & N).
      set (c := cycle quiet (wait b)) in *.
      change (queue (wait b)) with (queue b) in *.
      change (workerShutdown (wait b)) with (workerShutdown b) in S.
      change (workToDo (wait b)) with false in W. simpl in W.
      assert (Hperm : Permutation (batch c ++ queued (after c)) (queued b)).
      { unfold queued. rewrite AH, AM, AL, QH, QM, QL, B.
        apply parts_permutation. }
      assert (Hlen : List.length (batch c) + total (after c) = total b).
      { rewrite !total_queued, <- length_app. now apply Permutation_length. }
      assert (Hprog : 0 < total b -> 0 < List.length (batch c)).
      { intros Hpos. destruct (batch c) eqn:Eb; [|simpl; lia].
        destruct (N eq_refl) as (-> & -> & ->).
        rewrite total_queued in Hlen. unfold queued in Hlen.
        rewrite AH, AM, AL in Hlen. simpl in Hlen. lia. }
      assert (Hinv' : 0 < total (after c) -> workToDo (after c) = true).
      { intros Hpos. rewrite W. rewrite total_queued in Hpos. unfold queued in Hpos.
        rewrite AH, AM, AL in Hpos.
        destruct rH; [|reflexivity]. destruct rM; [|reflexivity].
        destruct rL; [simpl in Hpos; lia|reflexivity]. }
      assert (Hn' : total (after c) <= n) by lia.
      assert (Hrun' : workerShutdown (after c) = false) by congruence.
      destruct (IH (after c) Hrun' Hinv' Hn') as [Hz Hp].
      destruct (run (repeat quiet n) (after c)) as [ev b''].
      simpl fst in *. simpl snd in *. split; [exact Hz|].
      rewrite handed_app, handed_events.
      apply perm_trans with (batch c ++ queued (after c)); [|exact Hperm].
      now apply Permutation_app_head.
    + assert (Hz : total b = 0).
      { destruct (total b); [reflexivity|]. discriminate Hinv. lia. }
      apply IH; auto; lia.
Qed.

End QuietFacts.

(** ** No item is left behind without a signal *)

Section Liveness.

Variable T : Type.
Implicit Types (b : RequestQueueBatcher T) (il : Interleaving T)
         (prio p : menuPriority).

Lemma act_nonempty : forall a b p,
  queue (act b a) p <> [] -> workToDo (act b a) = true \/ queue b p <> [].
Proof.
  intros [cargo p'|cargo p'|p'|m lo hi|] b p H; simpl in *; auto.
  right. destruct (menuPriority_eqb p' p); auto.
Qed.

Lemma interfere_nonempty : forall acts b p,
  queue (interfere acts b) p <> [] ->
  workToDo (interfere acts b) = true \/ queue b p <> [].
Proof.
  induction acts as [|a acts IH]; intros b p H; [simpl in *; auto|].
  change (interfere (a :: acts) b) with (interfere acts (act b a)) in *.
  destruct (IH _ _ H) as [Hs|Hq]; auto.
  destruct (act_nonempty _ _ _ Hq) as [Hs|Hq']; auto.
  left. now apply interfere_keeps_signal.
Qed.

Lemma collect_nonempty : forall max il sb prio p,
  queue (fst (collect max il sb prio)) p <> [] ->
  workToDo (fst (collect max il sb prio)) = true \/
  (prio <> p /\ queue (fst sb) p <> []).
Proof.
  intros max il [b bt] prio p. rewrite collect_fst. cbv zeta. cbn [fst].
  set (b1 := interfere (before_lock il prio) b).
  set (b2 := if room max bt then _ else b1).
  set (b3 := interfere (before_check il prio) b2).
  intros H.
  assert (H3 : queue b3 p <> []) by (destruct (negb _); exact H).
  destruct (menuPriority_eqb prio p) eqn:E.
  - apply menuPriority_eqb_eq in E. subst p. left. unfold empty.
    destruct (queue b3 prio); [congruence|reflexivity].
  - assert (Hne : prio <> p).
    { intros ->. now rewrite menuPriority_eqb_refl in E. }
    destruct (interfere_nonempty _ _ _ H3) as [Hs|H2].
    { left. fold b3 in Hs. destruct (negb _); [reflexivity|exact Hs]. }
    assert (H1 : queue b1 p <> []).
    { subst b2. destruct (room max bt); auto.
      rewrite queue_set_queue, E in H2. exact H2. }
    destruct (interfere_nonempty _ _ _ H1) as [Hs|H0]; auto.
    left. fold b1 in Hs.
    assert (Hs2 : workToDo b2 = true)
      by (subst b2; destruct (room max bt); exact Hs).
    assert (Hs3 : workToDo b3 = true) by now apply interfere_keeps_signal.
    destruct (negb _); [reflexivity|exact Hs3].
Qed.

(** Whatever the other threads do during a pass: if a queue holds an item
    when the pass ends, the event is signalled. *)
Lemma cycle_leaves_signal : forall il b p,
  queue (after (cycle il b)) p <> [] -> workToDo (after (cycle il b)) = true.
Proof.
  intros il b p H. pose proof H as H'. rewrite cycle_after in H'.
  destruct (interfere_nonempty _ _ _ H') as [Hs|HL].
  { now rewrite cycle_after. }
  unfold leaving in HL. rewrite reaching_LOW in HL.
  destruct (collect_nonempty _ _ _ _ _ HL) as [Hs|[NL HM]].
  { now apply after_signalled with menuPriorityLOW. }
  unfold leaving in HM. rewrite reaching_MID in HM.
  destruct (collect_nonempty _ _ _ _ _ HM) as [Hs|[NM HH]].
  { now apply after_signalled with menuPriorityMID. }
  unfold leaving in HH.
  destruct (collect_nonempty _ _ _ _ _ HH) as [Hs|[NH _]].
  { now apply after_signalled with menuPriorityHIGH. }
  destruct p; congruence.
Qed.

Lemma total_pos : forall b,
  0 < total b -> exists p, queue b p <> [].
Proof.
  intros b H. unfold total, size in H.
  destruct (queue b menuPriorityHIGH) eqn:EH;
    [|exists menuPriorityHIGH; rewrite EH; discriminate].
  destruct (queue b menuPriorityMID) eqn:EM;
    [|exists menuPriorityMID; rewrite EM; discriminate].
  destruct (queue b menuPriorityLOW) eqn:EL;
    [|exists menuPriorityLOW; rewrite EL; discriminate].
  simpl in H. lia.
Qed.

(** C4. At every priority of every pass: when the test after the drain
    sees items in the queue, the event is signalled when the pass ends, so
    the next [wait()] returns at once, whatever the other threads do.
    And from the end of any pass, with no other thread acting any more and
    no shutdown requested, the worker goes on until the queues are empty
    and has handed over exactly the items that were left. *)
Theorem residue_wakes_worker_again : forall il b,
  (forall prio,
      residue_seen il b prio = true ->
      workToDo (after (cycle il b)) = true /\
      forall il', fst (iteration il' (after (cycle il b))) <> Blocked) /\
  (workerShutdown (after (cycle il b)) = false ->
   total (snd (run (repeat quiet (total (after (cycle il b))))
                   (after (cycle il b)))) = 0 /\
   Permutation
     (handed (fst (run (repeat quiet (total (after (cycle il b))))
                       (after (cycle il b)))))
     (queued (after (cycle il b)))).
Proof.
  intros il b. split.
  - intros prio H.
    assert (Hs : workToDo (after (cycle il b)) = true)
      by (apply after_signalled with prio, leaving_signalled, H).
    split; [exact Hs|]. intros il'. now apply iteration_not_blocked.
  - intros Hrun. apply quiet_run_drains; auto.
    intros Hpos. destruct (total_pos _ Hpos) as [p Hp].
    now apply cycle_leaves_signal with p.
Qed.

End Liveness.

(** ** Arithmetic on doubles *)

Section DoubleFacts.

Implicit Types x y : double.

Lemma double_of_unsigned_0 : double_of_unsigned 0 = d0.
Proof. reflexivity. Qed.

(** A finite double times zero is a zero. *)
Lemma dmul_zero : forall x,
  dfinite x = true -> exists s, dmul x d0 = S754_zero s.
Proof.
  intros [s|s| |s m e] H; try discriminate; simpl; eauto.
Qed.

(** Adding a zero of either sign changes nothing but a negative zero. *)
Lemma dadd_zero : forall x s,
  dnegzero x = false -> dadd x (S754_zero s) = x.
Proof.
  intros [[]|[]| |sx m e] [] H; simpl in *; try discriminate; reflexivity.
Qed.

Lemma dadd_zero_any : forall x s,
  dadd x (S754_zero s) = x \/
  (exists sx s', x = S754_zero sx /\ dadd x (S754_zero s) = S754_zero s').
Proof.
  intros [sx|sx| |sx m e] s; simpl; auto.
  right. exists sx. destruct sx, s; eauto.
Qed.

Lemma unsigned_of_zero_msec : forall s,
  unsigned_of_double (dmul (S754_zero s) d1e3) = Some 0%N.
Proof. intros []; reflexivity. Qed.

(** The sign of a rounded result is the sign that was asked for. *)
Lemma binary_round_aux_negzero : forall mx ex lx,
  dnegzero (binary_round_aux prec emax false mx ex lx) = false.
Proof.
  intros. unfold binary_round_aux.
  destruct (shr_fexp prec emax mx ex lx) as [mrs' e'].
  destruct (shr_fexp prec emax _ e' loc_Exact) as [mrs'' e''].
  destruct (shr_m mrs''); [reflexivity| |reflexivity].
  destruct (Z.leb _ _); reflexivity.
Qed.

Lemma double_of_unsigned_sign : forall n,
  match double_of_unsigned n with
  | S754_zero s | S754_infinity s | S754_finite s _ _ => s = false
  | S754_nan => True
  end.
Proof.
  intros [|p]; [reflexivity|]. unfold double_of_unsigned. simpl Z.of_N.
  unfold binary_normalize, binary_round.
  destruct (shl_align _ _ _) as [mz ez]. unfold binary_round_aux.
  destruct (shr_fexp prec emax (Z.pos mz) ez loc_Exact) as [mrs' e'].
  destruct (shr_fexp prec emax _ e' loc_Exact) as [mrs'' e''].
  destruct (shr_m mrs''); auto.
  destruct (Z.leb _ _); reflexivity.
Qed.

(** [minHoldOff / 1e3] is never a negative zero. *)
Lemma hold_fix_not_negzero : forall n,
  dnegzero (ddiv (double_of_unsigned n) d1e3) = false.
Proof.
  intros n. pose proof (double_of_unsigned_sign n) as H.
  destruct (double_of_unsigned n) as [s|s| |s m e]; subst; try reflexivity.
  unfold ddiv, d1e3. simpl SFdiv.
  destruct (SFdiv_core_binary _ _ _ _ _ _) as [[mz ez] lz].
  apply binary_round_aux_negzero.
Qed.

End DoubleFacts.

(** ** Rounding never overflows on the values of the parameters *)

Section RoundingFacts.

Local Open Scope Z_scope.
Local Unset Implicit Arguments.

Lemma pow2_pred : forall d, 0 < d -> 2 ^ d = 2 * 2 ^ (d - 1).
Proof.
  intros d H. replace d with (Z.succ (d - 1)) at 1 by lia.
  apply Z.pow_succ_r. lia.
Qed.

Lemma digits2_pos_bounds : forall p,
  2 ^ (Zpos (digits2_pos p) - 1) <= Zpos p < 2 ^ Zpos (digits2_pos p).
Proof.
  induction p as [p IH|p IH|]; cbn [digits2_pos].
  - rewrite Pos2Z.inj_succ, (Pos2Z.inj_xI p).
    replace (Z.succ (Zpos (digits2_pos p)) - 1) with (Zpos (digits2_pos p)) by lia.
    rewrite Z.pow_succ_r by lia.
    rewrite (pow2_pred (Zpos (digits2_pos p))) in * by lia.
    generalize dependent (2 ^ (Z.pos (digits2_pos p) - 1)). intros; lia.
  - rewrite Pos2Z.inj_succ, (Pos2Z.inj_xO p).
    replace (Z.succ (Zpos (digits2_pos p)) - 1) with (Zpos (digits2_pos p)) by lia.
    rewrite Z.pow_succ_r by lia.
    rewrite (pow2_pred (Zpos (digits2_pos p))) in * by lia.
    generalize dependent (2 ^ (Z.pos (digits2_pos p) - 1)). intros; lia.
  - simpl. lia.
Qed.

Lemma Zdigits2_nonneg : forall m, 0 <= Zdigits2 m.
Proof. intros [|p|p]; simpl; lia. Qed.

Lemma Zdigits2_lt_pow : forall m, 0 <= m -> m < 2 ^ Zdigits2 m.
Proof.
  intros [|p|p] H; simpl; try lia. apply digits2_pos_bounds.
Qed.

Lemma Zdigits2_le : forall m k, 0 <= m -> 0 <= k -> m < 2 ^ k -> Zdigits2 m <= k.
Proof.
  intros [|p|p] k Hm Hk Hlt; simpl; try lia.
  destruct (Z_le_gt_dec (Zpos (digits2_pos p)) k) as [|Hgt]; auto.
  exfalso. pose proof (digits2_pos_bounds p) as [Hlo _].
  assert (2 ^ k <= 2 ^ (Zpos (digits2_pos p) - 1)) by (apply Z.pow_le_mono_r; lia).
  lia.
Qed.

Lemma shr_1_m : forall mrs, 0 <= shr_m mrs -> shr_m (shr_1 mrs) = shr_m mrs / 2.
Proof.
  intros [[|[p|p|]|p] r s] H; cbn [shr_m shr_1] in *; try lia; try reflexivity.
  - rewrite (Pos2Z.inj_xI p). apply Z.div_unique with 1; lia.
  - rewrite (Pos2Z.inj_xO p). apply Z.div_unique with 0; lia.
Qed.

Lemma pow2_pos : forall k, 0 <= k -> 0 < 2 ^ k.
Proof. intros. apply Z.pow_pos_nonneg; lia. Qed.

Lemma iter_shr_m : forall p mrs,
  0 <= shr_m mrs -> shr_m (iter_pos shr_1 p mrs) = shr_m mrs / 2 ^ Zpos p.
Proof.
  induction p as [p IH|p IH|]; intros mrs H; cbn [iter_pos].
  - assert (Hp : 0 < 2 ^ Zpos p) by (apply pow2_pos; lia).
    assert (H1 : 0 <= shr_m (shr_1 mrs)) by (rewrite shr_1_m by auto; apply Z.div_pos; lia).
    assert (H2 : 0 <= shr_m (iter_pos shr_1 p (shr_1 mrs)))
      by (rewrite IH by auto; apply Z.div_pos; lia).
    rewrite IH, IH, shr_1_m by auto.
    rewrite !Z.div_div by lia.
    f_equal. rewrite (Pos2Z.inj_xI p).
    replace (2 * Zpos p + 1) with (1 + Zpos p + Zpos p) by lia.
    rewrite !Z.pow_add_r by lia. lia.
  - assert (Hp : 0 < 2 ^ Zpos p) by (apply pow2_pos; lia).
    assert (H2 : 0 <= shr_m (iter_pos shr_1 p mrs))
      by (rewrite IH by auto; apply Z.div_pos; lia).
    rewrite IH, IH by auto.
    rewrite !Z.div_div by lia.
    f_equal. rewrite (Pos2Z.inj_xO p).
    replace (2 * Zpos p) with (Zpos p + Zpos p) by lia.
    rewrite !Z.pow_add_r by lia. lia.
  - rewrite shr_1_m by auto. reflexivity.
Qed.

Lemma fexp_eq : forall z, fexp prec emax z = Z.max (z - 53) (-1074).
Proof. reflexivity. Qed.

Lemma shr_record_of_loc_m : forall m l, shr_m (shr_record_of_loc m l) = m.
Proof. intros m [|[]]; reflexivity. Qed.

Lemma shr_fexp_spec : forall m e l,
  0 <= m ->
  snd (shr_fexp prec emax m e l) = Z.max e (fexp prec emax (Zdigits2 m + e)) /\
  shr_m (fst (shr_fexp prec emax m e l))
  = m / 2 ^ (Z.max e (fexp prec emax (Zdigits2 m + e)) - e).
Proof.
  intros m e l Hm. unfold shr_fexp, shr.
  destruct (fexp prec emax (Zdigits2 m + e) - e) as [|p|p] eqn:E; cbn [fst snd].
  - replace (Z.max e (fexp prec emax (Zdigits2 m + e))) with e by lia.
    rewrite shr_record_of_loc_m, Z.sub_diag. simpl. now rewrite Z.div_1_r.
  - replace (Z.max e (fexp prec emax (Zdigits2 m + e))) with (e + Zpos p) by lia.
    split; [reflexivity|].
    rewrite iter_shr_m by (rewrite shr_record_of_loc_m; exact Hm).
    rewrite shr_record_of_loc_m. f_equal. f_equal. lia.
  - replace (Z.max e (fexp prec emax (Zdigits2 m + e))) with e by lia.
    rewrite shr_record_of_loc_m, Z.sub_diag. simpl. now rewrite Z.div_1_r.
Qed.

Lemma round_nearest_even_bounds : forall m l,
  m <= round_nearest_even m l <= m + 1.
Proof. intros m [|[]]; simpl; try destruct (Z.even m); lia. Qed.

(** The shape of every rounding. *)
Lemma binary_round_aux_spec : forall s m e l,
  0 <= m ->
  exists m2,
    let e1 := Z.max e (fexp prec emax (Zdigits2 m + e)) in
    let e2 := Z.max e1 (fexp prec emax (Zdigits2 m2 + e1)) in
    m / 2 ^ (e1 - e) <= m2 <= m / 2 ^ (e1 - e) + 1 /\
    binary_round_aux prec emax s m e l
    = match m2 / 2 ^ (e2 - e1) with
      | Z0 => S754_zero s
      | Zpos p => if e2 <=? 971 then S754_finite s p e2 else S754_infinity s
      | Zneg _ => S754_nan
      end.
Proof.
  intros s m e l Hm. unfold binary_round_aux.
  destruct (shr_fexp_spec m e l Hm) as [He1 Hm1].
  destruct (shr_fexp prec emax m e l) as [mrs' e'] eqn:E1. cbn [fst snd] in *.
  set (m2 := round_nearest_even (shr_m mrs') (loc_of_shr_record mrs')).
  assert (Hm1' : 0 <= shr_m mrs').
  { rewrite Hm1. apply Z.div_pos; [lia|]. apply pow2_pos. lia. }
  assert (Hb := round_nearest_even_bounds (shr_m mrs') (loc_of_shr_record mrs')).
  fold m2 in Hb.
  assert (Hm2 : 0 <= m2) by lia.
  destruct (shr_fexp_spec m2 e' loc_Exact Hm2) as [He2 Hm3].
  destruct (shr_fexp prec emax m2 e' loc_Exact) as [mrs'' e''] eqn:E2.
  cbn [fst snd] in *.
  exists m2. cbv zeta. subst e'. rewrite <- Hm1. split; [exact Hb|].
  rewrite Hm3, He2. reflexivity.
Qed.

Lemma div_pow2_digits : forall m k,
  0 <= m -> 0 <= k -> k <= Zdigits2 m -> Zdigits2 (m / 2 ^ k) <= Zdigits2 m - k.
Proof.
  intros m k Hm Hk Hd.
  assert (Hp := pow2_pos k Hk).
  apply Zdigits2_le; [apply Z.div_pos; lia | lia |].
  apply Z.div_lt_upper_bound; [lia|].
  rewrite <- Z.pow_add_r by lia.
  replace (k + (Zdigits2 m - k)) with (Zdigits2 m) by lia.
  now apply Zdigits2_lt_pow.
Qed.

Lemma div_pow2_small : forall m k,
  0 <= m -> Zdigits2 m <= k -> m / 2 ^ k = 0.
Proof.
  intros m k Hm Hd. apply Z.div_small. split; [lia|].
  apply Z.lt_le_trans with (2 ^ Zdigits2 m); [now apply Zdigits2_lt_pow|].
  apply Z.pow_le_mono_r; [lia|exact Hd].
Qed.

Lemma Zdigits2_ge_pow : forall m, 0 < m -> 2 ^ (Zdigits2 m - 1) <= m.
Proof. intros [|p|p] H; try lia. simpl. apply digits2_pos_bounds. Qed.

Lemma Zdigits2_pos : forall m, 0 < m -> 0 < Zdigits2 m.
Proof. intros [|p|p] H; simpl; lia. Qed.

Lemma div_pow2_pos : forall m k,
  0 < m -> 0 <= k -> k < Zdigits2 m -> 0 < m / 2 ^ k.
Proof.
  intros m k Hm Hk Hd.
  assert (Hp := pow2_pos k Hk).
  apply Z.div_str_pos. split; [lia|].
  apply Z.le_trans with (2 ^ (Zdigits2 m - 1)); [|now apply Zdigits2_ge_pow].
  apply Z.pow_le_mono_r; lia.
Qed.

Lemma Zdigits2_succ : forall m m', 0 <= m -> 0 <= m' <= m + 1 -> Zdigits2 m' <= Zdigits2 m + 1.
Proof.
  intros m m' Hm Hm'. assert (Hd := Zdigits2_nonneg m).
  apply Zdigits2_le; try lia.
  assert (H := Zdigits2_lt_pow m Hm).
  rewrite Z.pow_add_r, Z.pow_1_r by lia. lia.
Qed.

(** The digits of the rounded mantissa, counted from the shifted exponent,
    reach at most one place above those of the input. *)
Lemma rounded_magnitude : forall m e e1 m2,
  0 <= m -> e <= e1 ->
  m / 2 ^ (e1 - e) <= m2 <= m / 2 ^ (e1 - e) + 1 ->
  Zdigits2 m2 + e1 <= Z.max (Zdigits2 m + e) e1 + 1.
Proof.
  intros m e e1 m2 Hm He [Hlo Hhi].
  assert (Hp := pow2_pos (e1 - e) ltac:(lia)).
  assert (H1 : 0 <= m / 2 ^ (e1 - e)) by (apply Z.div_pos; lia).
  assert (Hs := Zdigits2_succ (m / 2 ^ (e1 - e)) m2 H1 ltac:(lia)).
  destruct (Z_le_gt_dec (e1 - e) (Zdigits2 m)) as [Hk|Hk].
  - assert (Hd := div_pow2_digits m (e1 - e) Hm ltac:(lia) Hk). lia.
  - rewrite (div_pow2_small m (e1 - e)) in Hs by lia. simpl in Hs. lia.
Qed.

(** A non-negative mantissa of moderate magnitude never rounds to an
    infinity or a NaN. *)
Lemma binary_round_aux_finite : forall s m e l,
  0 <= m -> e <= 900 -> Zdigits2 m + e <= 900 ->
  dfinite (binary_round_aux prec emax s m e l) = true.
Proof.
  intros s m e l Hm He Hmag.
  destruct (binary_round_aux_spec s m e l Hm) as (m2 & Hb & ->).
  cbv zeta in Hb. rewrite !fexp_eq in *.
  set (e1 := Z.max e (Z.max (Zdigits2 m + e - 53) (-1074))) in *.
  assert (Hr := rounded_magnitude m e e1 m2 Hm ltac:(lia) Hb).
  set (e2 := Z.max e1 (Z.max (Zdigits2 m2 + e1 - 53) (-1074))).
  assert (Hp := pow2_pos (e1 - e) ltac:(lia)).
  assert (H1 : 0 <= m / 2 ^ (e1 - e)) by (apply Z.div_pos; lia).
  assert (H3 : 0 <= m2 / 2 ^ (e2 - e1)).
  { apply Z.div_pos; [lia|]. apply pow2_pos. lia. }
  destruct (m2 / 2 ^ (e2 - e1)); [reflexivity| |lia].
  replace (e2 <=? 971) with true by (symmetry; apply Z.leb_le; lia).
  reflexivity.
Qed.

(** A positive mantissa well above the subnormal range rounds to a finite
    non-zero double: the exponent does not fall and the magnitude rises by
    one place at most. *)
Lemma binary_round_aux_box : forall s m e l,
  0 < m -> -1021 <= e -> Zdigits2 m + e <= 900 ->
  exists p e'',
    binary_round_aux prec emax s m e l = S754_finite s p e'' /\
    e <= e'' /\
    Zpos (digits2_pos p) + e'' <= Zdigits2 m + e + 1.
Proof.
  intros s m e l Hm He Hmag.
  destruct (binary_round_aux_spec s m e l ltac:(lia)) as (m2 & Hb & ->).
  cbv zeta in Hb. rewrite !fexp_eq in *.
  assert (Hd := Zdigits2_pos m Hm).
  set (e1 := Z.max e (Z.max (Zdigits2 m + e - 53) (-1074))) in *.
  assert (Hr := rounded_magnitude m e e1 m2 ltac:(lia) ltac:(lia) Hb).
  assert (H1 : 0 < m / 2 ^ (e1 - e)) by (apply div_pow2_pos; lia).
  assert (Hm2 : 0 < m2) by lia.
  assert (Hd2 := Zdigits2_pos m2 Hm2).
  set (e2 := Z.max e1 (Z.max (Zdigits2 m2 + e1 - 53) (-1074))).
  assert (H3 : 0 < m2 / 2 ^ (e2 - e1)) by (apply div_pow2_pos; lia).
  assert (Hd3 := div_pow2_digits m2 (e2 - e1) ltac:(lia) ltac:(lia) ltac:(lia)).
  destruct (m2 / 2 ^ (e2 - e1)) as [|p|p] eqn:E3; try lia.
  replace (e2 <=? 971) with true by (symmetry; apply Z.leb_le; lia).
  exists p, e2. split; [reflexivity|]. simpl in Hd3. lia.
Qed.

Lemma digits_iter_xO : forall k p,
  digits2_pos (Pos.iter xO p k) = (digits2_pos p + k)%positive.
Proof.
  intros k p. induction k as [|k IH] using Pos.peano_ind.
  - simpl. lia.
  - rewrite Pos.iter_succ. cbn [digits2_pos]. rewrite IH. lia.
Qed.

(** Aligning a mantissa to a lower exponent keeps its magnitude. *)
Lemma shl_align_spec : forall mx ex ex',
  snd (shl_align mx ex ex') = Z.min ex ex' /\
  Zpos (digits2_pos (fst (shl_align mx ex ex'))) + snd (shl_align mx ex ex')
  = Zpos (digits2_pos mx) + ex.
Proof.
  intros mx ex ex'. unfold shl_align.
  destruct (ex' - ex) as [|d|d] eqn:E; cbn [fst snd]; try lia.
  rewrite digits_iter_xO. lia.
Qed.

Lemma binary_round_box : forall s p e,
  -900 <= e -> Zpos (digits2_pos p) + e <= 900 ->
  exists p' e'',
    binary_round prec emax s p e = S754_finite s p' e'' /\
    e - 52 <= e'' /\
    Zpos (digits2_pos p') + e'' <= Zpos (digits2_pos p) + e + 1.
Proof.
  intros s p e He Hmag. unfold binary_round.
  destruct (shl_align_spec p e (fexp prec emax (Zpos (digits2_pos p) + e)))
    as [Hez Hd].
  destruct (shl_align p e _) as [mz ez]. cbn [fst snd] in *.
  rewrite fexp_eq in Hez.
  assert (H1 : 0 < Zpos mz) by lia.
  assert (Hp := Pos2Z.is_pos (digits2_pos p)).
  assert (H2 : -1021 <= ez) by lia.
  assert (H3 : Zdigits2 (Zpos mz) + ez <= 900) by (cbn [Zdigits2]; lia).
  destruct (binary_round_aux_box s (Zpos mz) ez loc_Exact H1 H2 H3)
    as (p' & e'' & Hr & He'' & Hm'').
  exists p', e''. split; [exact Hr|]. cbn [Zdigits2] in Hm''. lia.
Qed.

Lemma double_of_unsigned_box : forall n,
  (0 < n < 2 ^ 32)%N -> boxed (-52) 33 (double_of_unsigned n).
Proof.
  intros [|p] Hn; [lia|]. unfold double_of_unsigned, binary_normalize. cbn [Z.of_N].
  assert (Hd : Zpos (digits2_pos p) <= 32).
  { apply (Zdigits2_le (Zpos p)); lia. }
  destruct (binary_round_box false p 0 ltac:(lia) ltac:(lia))
    as (p' & e'' & -> & He & Hm).
  cbn [boxed]. lia.
Qed.

Lemma lt_pow2_box : forall (m : positive) e hi,
  Zpos (digits2_pos m) + e <= hi -> Zpos m < 2 ^ (hi - e).
Proof.
  intros m e hi H.
  apply Z.lt_le_trans with (2 ^ Zpos (digits2_pos m)).
  - apply digits2_pos_bounds.
  - apply Z.pow_le_mono_r; lia.
Qed.

(** The difference of two doubles of the size of an [unsigned int] is zero
    or a double of that size. *)
Lemma dsub_box : forall x y,
  boxed (-52) 33 x -> boxed (-52) 33 y ->
  dsub x y = S754_zero false \/ boxed (-104) 35 (dsub x y).
Proof.
  intros [sx|sx| |sx mx ex] [sy|sy| |sy my ey] Hx Hy; try contradiction.
  cbn [boxed] in Hx, Hy. unfold dsub. cbn [SFsub].
  set (ez := Z.min ex ey).
  destruct (shl_align_spec mx ex ez) as [Hax Hdx].
  destruct (shl_align_spec my ey ez) as [Hay Hdy].
  destruct (shl_align mx ex ez) as [a ea]. destruct (shl_align my ey ez) as [b eb].
  cbn [fst snd] in *.
  assert (Ha : Zpos a < 2 ^ (33 - ez)) by (apply lt_pow2_box; lia).
  assert (Hb : Zpos b < 2 ^ (33 - ez)) by (apply lt_pow2_box; lia).
  assert (Hz : Z.abs (cond_Zopp sx (Zpos a) - cond_Zopp sy (Zpos b)) < 2 ^ (34 - ez)).
  { replace (34 - ez) with (Z.succ (33 - ez)) by lia.
    rewrite Z.pow_succ_r by lia. destruct sx, sy; cbn [cond_Zopp]; lia. }
  unfold binary_normalize.
  destruct (cond_Zopp sx (Zpos a) - cond_Zopp sy (Zpos b)) as [|q|q]; [now left| |];
    right.
  - assert (Hq : Zpos (digits2_pos q) <= 34 - ez)
      by (apply (Zdigits2_le (Zpos q)); lia).
    destruct (binary_round_box false q ez ltac:(lia) ltac:(lia))
      as (p' & e'' & -> & He & Hm).
    cbn [boxed]. lia.
  - assert (Hq : Zpos (digits2_pos q) <= 34 - ez)
      by (apply (Zdigits2_le (Zpos q)); lia).
    destruct (binary_round_box true q ez ltac:(lia) ltac:(lia))
      as (p' & e'' & -> & He & Hm).
    cbn [boxed]. lia.
Qed.

Lemma d1e3_eq : d1e3 = S754_finite false 8796093022208000 (-43).
Proof. reflexivity. Qed.

(** A batch size times [1e3] is a finite double that is not zero. *)
Lemma dmul_1e3_box : forall x,
  boxed (-52) 33 x -> boxed (-95) 45 (dmul x d1e3).
Proof.
  intros [sx|sx| |sx mx ex] Hx; try contradiction.
  cbn [boxed] in Hx. rewrite d1e3_eq. unfold dmul. cbn [SFmul].
  assert (Hmx := lt_pow2_box mx ex 33 ltac:(lia)).
  assert (Hd : Zdigits2 (Zpos (mx * 8796093022208000)) <= 33 - ex + 53).
  { apply Zdigits2_le; try lia.
    rewrite Pos2Z.inj_mul, Z.pow_add_r by lia.
    assert (Zpos 8796093022208000 < 2 ^ 53) by reflexivity.
    assert (0 < 2 ^ (33 - ex)) by (apply pow2_pos; lia).
    nia. }
  destruct (binary_round_aux_box (xorb sx false) (Zpos (mx * 8796093022208000))
                                 (ex + -43) loc_Exact)
    as (p' & e'' & -> & He & Hm); try lia.
  cbn [boxed]. lia.
Qed.

(** A quotient of doubles of these sizes does not overflow. *)
Lemma ddiv_finite : forall x y,
  x = S754_zero false \/ boxed (-104) 35 x ->
  boxed (-95) 45 y ->
  dfinite (ddiv x y) = true.
Proof.
  intros x [sy|sy| |sy my ey] Hx Hy; try contradiction.
  destruct Hx as [->|Hx]; [reflexivity|].
  destruct x as [sx|sx| |sx mx ex]; try contradiction.
  cbn [boxed] in Hx, Hy. unfold ddiv. cbn [SFdiv].
  unfold SFdiv_core_binary. rewrite fexp_eq. cbn [Zdigits2].
  set (e' := Z.min _ (ex - ey)).
  set (s := ex - ey - e').
  assert (Hs : 0 <= s) by lia.
  set (m' := match s with Z.pos _ => Z.shiftl (Zpos mx) s | 0 => Zpos mx | Z.neg _ => 0 end).
  assert (Hm' : m' = Zpos mx * 2 ^ s).
  { subst m'. destruct s as [|ps|ps] eqn:Es; [simpl; lia| |lia].
    apply Z.shiftl_mul_pow2. lia. }
  assert (Hps := pow2_pos s Hs).
  assert (Hq : Z.div_eucl m' (Zpos my) = (m' / Zpos my, m' mod Zpos my)).
  { unfold Z.div, Z.modulo. now destruct (Z.div_eucl m' (Zpos my)). }
  rewrite Hq.
  assert (H0 : 0 <= m' / Zpos my) by (apply Z.div_pos; nia).
  assert (Hle : m' / Zpos my <= m').
  { apply Z.div_le_upper_bound; nia. }
  assert (Hmx := lt_pow2_box mx ex 35 ltac:(lia)).
  assert (Hd : Zdigits2 (m' / Zpos my) <= 35 - ex + s).
  { apply Zdigits2_le; try lia.
    rewrite Z.pow_add_r by lia.
    assert (0 < 2 ^ (35 - ex)) by (apply pow2_pos; lia).
    nia. }
  apply binary_round_aux_finite; lia.
Qed.

Lemma holdOffVar_finite : forall m lo hi,
  (0 < m < 2 ^ 32)%N -> (lo < 2 ^ 32)%N -> (0 < hi < 2 ^ 32)%N ->
  dfinite (ddiv (dsub (double_of_unsigned hi) (double_of_unsigned lo))
                (dmul (double_of_unsigned m) d1e3)) = true.
Proof.
  intros m lo hi Hm Hlo Hhi.
  apply ddiv_finite; [|apply dmul_1e3_box, double_of_unsigned_box, Hm].
  assert (Hh := double_of_unsigned_box hi Hhi).
  destruct (N.eq_dec lo 0) as [->|Hne].
  - right. change (double_of_unsigned 0) with (S754_zero false).
    destruct (double_of_unsigned hi) as [s|s| |s mh eh]; try contradiction.
    cbn [boxed] in *. unfold dsub. cbn [SFsub boxed]. lia.
  - apply dsub_box; [exact Hh|]. apply double_of_unsigned_box. lia.
Qed.

End RoundingFacts.

(** ** The parameter block and its accessors *)

Section ParamFacts.

Variable T : Type.
Implicit Types (b : RequestQueueBatcher T) (il : Interleaving T).

(** With [maxRequestsPerBatch == 0] the assignment to [holdOffVar] is
    skipped: the member keeps what it held. *)
Lemma setParams_zero_keeps_holdOffVar : forall lo hi b,
  holdOffVar (setParams 0 lo hi b) = holdOffVar b.
Proof. reflexivity. Qed.

Lemma setParams_holdOffFix : forall m lo hi b,
  holdOffFix (setParams m lo hi b) = ddiv (double_of_unsigned lo) d1e3.
Proof. reflexivity. Qed.

(** Every [holdOffFix] that [setParams] stores is not a negative zero. *)
Lemma setParams_fix_not_negzero : forall m lo hi b,
  dnegzero (holdOffFix (setParams m lo hi b)) = false.
Proof. intros. rewrite setParams_holdOffFix. apply hold_fix_not_negzero. Qed.

(** Every [setParams] and the constructor, called with [unsigned int]
    arguments, leave a sound parameter block; nothing else writes to it. *)
Lemma setParams_sound : forall m lo hi b,
  unsigned_int m -> unsigned_int lo -> unsigned_int hi ->
  params_sound b -> params_sound (setParams m lo hi b).
Proof.
  intros m lo hi b Hm Hlo Hhi [Hv Hf]. split.
  - unfold setParams. cbn [holdOffVar].
    destruct (N.eqb_spec m 0); [exact Hv|].
    destruct (N.eqb_spec hi 0); [reflexivity|].
    apply holdOffVar_finite; unfold unsigned_int in *; lia.
  - apply setParams_fix_not_negzero.
Qed.

Lemma construct_sound : forall m lo hi,
  unsigned_int m -> unsigned_int lo -> unsigned_int hi ->
  params_sound (construct T m lo hi).
Proof.
  intros. unfold construct. apply setParams_sound; auto. split; reflexivity.
Qed.

(** C3 (the source departs from it). [setParams(10, 10, 100)] followed by
    [setParams(0, 0, 0)]: the second call stores [maxBatchSize = 0] and
    [holdOffFix = 0] but leaves in [holdOffVar] the 0.009 s per item of the
    first call, not zero; and so does every call with
    [maxRequestsPerBatch == 0], whatever was stored before.  The next pass
    sleeps 0.045 s after a batch of five although both hold-off times
    were set to zero. *)
Theorem setParams_zero_batch_leaves_stale_holdOffVar :
  (forall lo hi b, holdOffVar (setParams 0 lo hi b) = holdOffVar b) /\
  maxBatchSize (setParams 0 0 0 (construct T 10 10 100)) = 0%N /\
  holdOffFix (setParams 0 0 0 (construct T 10 10 100)) = d0 /\
  holdOffVar (setParams 0 0 0 (construct T 10 10 100))
  = S754_finite false 5188146770730811 (-59) /\
  holdOffVar (setParams 0 0 0 (construct T 10 10 100)) <> d0 /\
  (forall x : T,
      events (cycle quiet
                    (wait (pushRequests [x; x; x; x; x] menuPriorityLOW
                                        (setParams 0 0 0 (construct T 10 10 100)))))
      = [ProcessRequests [x; x; x; x; x];
         Sleep (ddiv (double_of_unsigned 45) d1e3)]).
Proof.
  split; [reflexivity|]. split; [reflexivity|]. split; [reflexivity|].
  split; [vm_compute; reflexivity|]. split; [vm_compute; discriminate|].
  intros x. vm_compute. reflexivity.
Qed.

(** C6 (the source departs from it). After [setParams(10, 10, 100)] the
    accessor [maxHoldOff()] returns 99, not 100, and the hold-off after a
    full batch of 10 is the double just below [100 / 1e3]; after
    [setParams(1, 1001, 2000)] the accessor [minHoldOff()] returns 1000,
    not 1001.  The products are rounded below the integer and the cast
    to [unsigned int] truncates. *)
Theorem holdOff_accessors_lose_a_millisecond :
  maxHoldOff (construct T 10 10 100) = Some 99%N /\
  minHoldOff (construct T 10 10 100) = Some 10%N /\
  minHoldOff (construct T 1 1001 2000) = Some 1000%N /\
  maxHoldOff (construct T 1 1001 2000) = Some 2000%N /\
  holdOff_of (params (construct T 10 10 100)) 10
  = S754_finite false 7205759403792793 (-56) /\
  ddiv (double_of_unsigned 100) d1e3
  = S754_finite false 7205759403792794 (-56) /\
  deq (holdOff_of (params (construct T 10 10 100)) 10)
      (ddiv (double_of_unsigned 100) d1e3) = false.
Proof. repeat split; vm_compute; reflexivity. Qed.

(** C10. With [maxBatchSize == 0] stored, [maxHoldOff()] returns what
    [minHoldOff()] returns, whatever finite value [holdOffVar] holds (and
    every value that [setParams] stores is finite, see [setParams_sound]):
    the product with the zero batch size is a zero. *)
Theorem maxHoldOff_is_minHoldOff_when_unlimited : forall b,
  maxBatchSize b = 0%N ->
  dfinite (holdOffVar b) = true ->
  maxHoldOff b = minHoldOff b.
Proof.
  intros b Hmax Hfin. unfold maxHoldOff, minHoldOff.
  rewrite Hmax, double_of_unsigned_0.
  destruct (dmul_zero _ Hfin) as [s ->].
  destruct (dadd_zero_any (holdOffFix b) s) as [->|(sx & s' & -> & ->)];
    [reflexivity|].
  now rewrite !unsigned_of_zero_msec.
Qed.

End ParamFacts.

(** ** Delivery and hold-off of one pass *)

Section DeliveryFacts.

Variable T : Type.
Implicit Types (b : RequestQueueBatcher T) (il : Interleaving T).

Lemma act_params : forall (a : Action T) b,
  is_setParams a = false -> params (act b a) = params b.
Proof. intros [] b H; try discriminate; reflexivity. Qed.

(** Without a [setParams] among them, the actions of the other threads
    leave the parameter block alone. *)
Lemma interfere_params : forall (acts : list (Action T)) b,
  existsb (@is_setParams T) acts = false ->
  params (interfere acts b) = params b.
Proof.
  induction acts as [|a acts IH]; intros b H; [reflexivity|].
  simpl in H. apply orb_false_iff in H. destruct H as [Ha H].
  change (interfere (a :: acts) b) with (interfere acts (act b a)).
  rewrite IH by exact H. now apply act_params.
Qed.

Lemma collect_params : forall max il sb prio,
  existsb (@is_setParams T) (before_lock il prio) = false ->
  existsb (@is_setParams T) (before_check il prio) = false ->
  params (fst (collect max il sb prio)) = params (fst sb).
Proof.
  intros max il [b bt] prio Hl Hc. rewrite collect_fst. cbv zeta. cbn [fst].
  set (b1 := interfere (before_lock il prio) b).
  set (b2 := if room max bt then _ else b1).
  set (b3 := interfere (before_check il prio) b2).
  assert (H1 : params b1 = params b) by now apply interfere_params.
  assert (H2 : params b2 = params b1)
    by (subst b2; destruct (room max bt); reflexivity).
  assert (H3 : params b3 = params b2) by now apply interfere_params.
  destruct (negb _); [change (params (signal b3)) with (params b3)|]; congruence.
Qed.

Lemma params_sound_eq : forall b b',
  params b' = params b -> params_sound b -> params_sound b'.
Proof.
  intros b b' E [Hv Hf]. unfold params in E. inversion E as [[E1 E2 E3]].
  unfold params_sound. now rewrite E2, E3.
Qed.

Lemma act_sound : forall (a : Action T) b,
  action_ok a -> params_sound b -> params_sound (act b a).
Proof.
  intros a b Ha Hb. destruct a as [cargo p|cargo p|p|m lo hi|];
    try (apply params_sound_eq with b; [reflexivity|exact Hb]).
  destruct Ha as (Hm & Hlo & Hhi). now apply setParams_sound.
Qed.

Lemma interfere_sound : forall (acts : list (Action T)) b,
  Forall (@action_ok T) acts -> params_sound b -> params_sound (interfere acts b).
Proof.
  induction acts as [|a acts IH]; intros b Ha Hb; [exact Hb|].
  inversion Ha; subst.
  change (interfere (a :: acts) b) with (interfere acts (act b a)).
  apply IH; [assumption|]. now apply act_sound.
Qed.

Lemma collect_sound : forall max il sb prio,
  interleaving_ok il ->
  params_sound (fst sb) -> params_sound (fst (collect max il sb prio)).
Proof.
  intros max il [b bt] prio (_ & _ & Hl & Hc & _) Hb. rewrite collect_fst.
  cbv zeta. cbn [fst] in *.
  set (b1 := interfere (before_lock il prio) b).
  set (b2 := if room max bt then _ else b1).
  set (b3 := interfere (before_check il prio) b2).
  assert (H1 : params_sound b1) by (apply interfere_sound; auto).
  assert (H2 : params_sound b2).
  { subst b2. destruct (room max bt); [|exact H1].
    apply params_sound_eq with b1; [reflexivity|exact H1]. }
  assert (H3 : params_sound b3) by (apply interfere_sound; auto).
  destruct (negb _); [|exact H3].
  apply params_sound_eq with b3; [reflexivity|exact H3].
Qed.

(** A sound parameter block stays sound through a whole pass, whatever the
    other threads do with [unsigned int] arguments. *)
Lemma cycle_sound : forall il b,
  interleaving_ok il -> params_sound b -> params_sound (after (cycle il b)).
Proof.
  intros il b Hil Hb. pose proof Hil as (_ & Hmax & _ & _ & Hh).
  rewrite cycle_after. apply interfere_sound; [exact Hh|].
  unfold leaving. apply collect_sound; [exact Hil|].
  rewrite reaching_LOW. unfold leaving. apply collect_sound; [exact Hil|].
  rewrite reaching_MID. unfold leaving. apply collect_sound; [exact Hil|].
  rewrite reaching_HIGH. cbn [fst]. now apply interfere_sound.
Qed.

Lemma events_processRequests : forall (c : Cycle T) x,
  In (ProcessRequests x) (events c) <-> (x = batch c /\ batch c <> []).
Proof.
  intros c x. unfold events, delivered, slept. rewrite in_app_iff. split.
  - intros [H|H].
    + destruct (batch c) eqn:E; simpl in H; [tauto|].
      destruct H as [H|[]]. inversion H. split; [reflexivity|discriminate].
    + destruct (dgt (holdOff c) d0); simpl in H; [|tauto].
      destruct H as [H|[]]. discriminate H.
  - intros [-> Hne]. left. destruct (batch c); [congruence|]. now left.
Qed.

(** C5. In every pass [processRequests] is among the calls of the worker
    exactly when the batch is not empty, and then with that batch.  When the
    worker finds all three queues empty, the batch is empty and nothing is
    delivered; and with a sound parameter block (as the constructor and
    [setParams] leave it, see [cycle_sound]) the variable term is a zero,
    the hold-off is [holdOffFix], and the worker sleeps [holdOffFix]
    seconds: its only call is [sleep(holdOffFix)] when [holdOffFix > 0.0],
    and it does not sleep when [holdOffFix] is zero. *)
Theorem delivery_iff_batch_and_idle_holdoff : forall il b,
  (forall x, In (ProcessRequests x) (events (cycle il b))
             <-> (x = batch (cycle il b) /\ batch (cycle il b) <> [])) /\
  ((forall prio, found il b prio = []) ->
   batch (cycle il b) = [] /\
   (params_sound (after (cycle il b)) ->
    (exists s,
        dmul (holdOffVar (after (cycle il b)))
             (double_of_unsigned (N.of_nat (List.length (batch (cycle il b)))))
        = S754_zero s) /\
    holdOff (cycle il b) = holdOffFix (after (cycle il b)) /\
    events (cycle il b)
    = if dgt (holdOffFix (after (cycle il b))) d0
      then [Sleep (holdOffFix (after (cycle il b)))]
      else [])).
Proof.
  intros il b. split; [apply events_processRequests|].
  intros Hempty.
  assert (Hb : batch (cycle il b) = []).
  { destruct (batch_parts il b)
      as (high & mid & low & -> & [rh Hh] & [rm Hm] & [rl Hl]).
    rewrite Hempty in Hh, Hm, Hl.
    destruct high; [|discriminate]. destruct mid; [|discriminate].
    destruct low; [reflexivity|discriminate]. }
  split; [exact Hb|].
  intros [Hfin Hnz].
  assert (Hh : holdOff (cycle il b) = holdOffFix (after (cycle il b))).
  { rewrite cycle_holdOff, Hb. unfold holdOff_of. cbn [List.length N.of_nat].
    cbn [p_holdOffFix p_holdOffVar params].
    rewrite double_of_unsigned_0.
    destruct (dmul_zero _ Hfin) as [s ->]. now apply dadd_zero. }
  split; [|split].
  - rewrite Hb. cbn [List.length N.of_nat]. rewrite double_of_unsigned_0.
    now apply dmul_zero.
  - exact Hh.
  - unfold events, delivered, slept. now rewrite Hb, Hh.
Qed.

(** C7, as the source has it.  The [max] of a pass is read from the block
    under the first parameter guard, and [holdOffFix] and [holdOffVar]
    are read together from the block under the second guard; the two
    blocks are the same when no [setParams] of another thread falls
    between the two guards, and then the pass uses one snapshot. *)
Theorem two_parameter_reads_per_pass : forall il b,
  max_used (cycle il b) = p_maxBatchSize (params_at_max il b) /\
  holdOff (cycle il b)
  = holdOff_of (params_at_hold il b) (List.length (batch (cycle il b))) /\
  ((forall prio, existsb (@is_setParams T) (before_lock il prio) = false) ->
   (forall prio, existsb (@is_setParams T) (before_check il prio) = false) ->
   existsb (@is_setParams T) (before_hold il) = false ->
   params_at_hold il b = params_at_max il b /\ one_snapshot il b).
Proof.
  intros il b. split; [apply cycle_max|]. split; [apply cycle_holdOff|].
  intros Hl Hc Hh.
  assert (E : params_at_hold il b = params_at_max il b).
  { unfold params_at_hold, params_at_max. rewrite cycle_after.
    rewrite interfere_params by exact Hh.
    unfold leaving. rewrite collect_params by auto.
    rewrite reaching_LOW. unfold leaving. rewrite collect_params by auto.
    rewrite reaching_MID. unfold leaving. rewrite collect_params by auto.
    reflexivity. }
  split; [exact E|].
  exists (params_at_max il b). split; [now left|].
  split; [apply cycle_max|]. rewrite <- E. apply cycle_holdOff.
Qed.

End DeliveryFacts.

(** ** The link-string splitter *)

Section SplitFacts.

Implicit Types (str pre post token : string) (delim c : ascii).

(** Scanning a string in two pieces, when the second piece does not begin
    with a delimiter that a backslash ending the first piece would
    escape. *)
Lemma scan_append : forall n delim pre str token,
  String.length pre <= n ->
  (forall d rest, str = String d rest -> d <> delim) ->
  scan delim (pre ++ str)%string token
  = fst (scan_prefix delim pre token) ++ scan delim str (snd (scan_prefix delim pre token)).
Proof.
  induction n as [|n IH]; intros delim pre str token Hlen Hstr.
  - destruct pre; [reflexivity | simpl in Hlen; lia].
  - destruct pre as [|c rest]; [reflexivity|].
    simpl in Hlen. cbn [append scan scan_prefix].
    destruct (Ascii.eqb c backslash) eqn:Ec.
    + destruct rest as [|d rest'].
      * cbn [append]. destruct str as [|d' str'].
        { reflexivity. }
        { assert (Hd : Ascii.eqb d' delim = false).
          { apply Ascii.eqb_neq. now apply (Hstr d' str'). }
          rewrite Hd. reflexivity. }
      * cbn [append]. destruct (Ascii.eqb d delim).
        { apply IH; [simpl in Hlen; lia | exact Hstr]. }
        { change (String d (rest' ++ str)%string)
            with ((String d rest') ++ str)%string.
          apply IH; [lia | exact Hstr]. }
    + destruct (Ascii.eqb c delim).
      * rewrite (IH delim rest str EmptyString) by (auto; lia).
        destruct (scan_prefix delim rest EmptyString). reflexivity.
      * apply IH; [lia | exact Hstr].
Qed.

(** C8, as the corpus has it.  For a delimiter other than the backslash:
    a backslash immediately before a delimiter, anywhere in the string,
    makes the delimiter part of the current token, is not emitted itself,
    and the token goes on; a backslash before any other character is
    appended to the token as an ordinary character and the character
    after it is scanned as usual. *)
Theorem backslash_escapes_the_delimiter : forall pre post delim,
  delim <> backslash ->
  splitString (pre ++ String backslash (String delim post))%string delim
  = fst (scan_prefix delim pre EmptyString)
    ++ scan delim post (add_char (snd (scan_prefix delim pre EmptyString)) delim) /\
  (forall c, c <> delim ->
     splitString (pre ++ String backslash (String c post))%string delim
     = fst (scan_prefix delim pre EmptyString)
       ++ scan delim (String c post)
               (add_char (snd (scan_prefix delim pre EmptyString)) backslash)).
Proof.
  intros pre post delim Hd.
  assert (Hb : forall d rest x, String backslash x = String d rest -> d <> delim).
  { intros d rest x E. inversion E. congruence. }
  split.
  - unfold splitString. rewrite (scan_append (n := String.length pre)) by eauto.
    f_equal. cbn [scan]. change (Ascii.eqb backslash backslash) with true.
    cbv iota. now rewrite Ascii.eqb_refl.
  - intros c Hc. unfold splitString.
    rewrite (scan_append (n := String.length pre)) by eauto.
    f_equal. cbn [scan]. change (Ascii.eqb backslash backslash) with true.
    cbv iota. apply Ascii.eqb_neq in Hc. now rewrite Hc.
Qed.

(** The model passes every test of [LinkParserTest.cpp]; the escape as
    the prose words it fails the one with the escaped backslash. *)
Lemma LinkParserTest_passes :
  forallb (passes splitString) LinkParserTest = true.
Proof. vm_compute. reflexivity. Qed.

Lemma LinkParserTest_refutes_wording :
  map (passes splitString_as_worded) LinkParserTest
  = [true; true; true; true; true; true; true; true; true; false;
     true; true; true; true; true] /\
  splitString_as_worded escaped_backslashes_input defaultElementDelimiter
  = ["one..\"%string; "two..three"%string].
Proof. split; vm_compute; reflexivity. Qed.

(** C9, with the length of the last input put right.  With the default
    delimiter the splitter returns the outputs of the corpus; the input
    with the escaped backslash, 23 characters long, gives one token: the
    dot after the two backslashes does not split. *)
Theorem splitString_corpus_outputs : corpus_outputs splitString 23.
Proof. unfold corpus_outputs. repeat split; vm_compute; reflexivity. Qed.

End SplitFacts.

(** ** What a pass takes *)

Section TakeFacts.

Variable T : Type.
Implicit Types (b : RequestQueueBatcher T) (il : Interleaving T)
         (q bt : list T) (prio : menuPriority).

(** The inner loop moves exactly the first [allowance] items. *)
Lemma drain_exact : forall max q bt,
  drain max q bt
  = (skipn (allowance max bt q) q, bt ++ firstn (allowance max bt q) q).
Proof.
  intros max q; induction q as [|front q IH]; intros bt.
  - simpl. now rewrite skipn_nil, firstn_nil, app_nil_r.
  - cbn [drain]. unfold room, allowance in *.
    destruct (N.eqb_spec max 0) as [E|E]; cbn [orb].
    + rewrite IH. cbn [List.length skipn firstn]. now rewrite <- app_assoc.
    + destruct (N.ltb_spec (N.of_nat (List.length bt)) max) as [L|L].
      * rewrite IH, length_app. cbn [List.length].
        replace (N.to_nat max - List.length bt)
          with (S (N.to_nat max - (List.length bt + 1))) by lia.
        cbn [skipn firstn]. now rewrite <- app_assoc.
      * replace (N.to_nat max - List.length bt) with 0 by lia.
        cbn [skipn firstn]. now rewrite app_nil_r.
Qed.

Lemma room_allowance : forall max bt q,
  room max bt = false -> allowance max bt q = 0.
Proof.
  intros max bt q H. apply room_false in H. destruct H as [Hm Hl].
  unfold allowance. destruct (N.eqb_spec max 0); [contradiction|lia].
Qed.

(** The loop body at one priority, without interference, in closed form. *)
Lemma collect_quiet_exact : forall max b bt prio,
  snd (collect max quiet (b, bt) prio)
  = bt ++ firstn (allowance max bt (queue b prio)) (queue b prio) /\
  forall p, queue (fst (collect max quiet (b, bt) prio)) p
            = if menuPriority_eqb prio p
              then skipn (allowance max bt (queue b prio)) (queue b prio)
              else queue b p.
Proof.
  intros max b bt prio. rewrite collect_snd, collect_fst.
  change (before_lock quiet prio) with (@nil (Action T)).
  change (before_check quiet prio) with (@nil (Action T)).
  cbn [interfere fold_left]. cbv zeta.
  destruct (room max bt) eqn:Hroom.
  - rewrite drain_exact. cbn [fst snd]. split; [reflexivity|].
    intros p. destruct (negb _); reflexivity.
  - rewrite (room_allowance _ _ _ Hroom). cbn [firstn skipn].
    rewrite app_nil_r. split; [reflexivity|].
    intros p. destruct (negb _); cbn [signal queue];
      destruct (menuPriority_eqb prio p) eqn:E; try reflexivity;
      apply menuPriority_eqb_eq in E; now subst.
Qed.

Lemma firstn3 : forall k (qH qM qL : list T),
  firstn k (qH ++ qM ++ qL)
  = firstn k qH ++ firstn (k - List.length qH) qM
    ++ firstn (k - List.length qH - List.length qM) qL.
Proof. intros. now rewrite !firstn_app. Qed.

(** A pass without interference in closed form: with [k] the number of
    items the pass may take, it takes the first [k] of what is queued,
    HIGH before MID before LOW, and leaves each queue its rest. *)
Lemma cycle_quiet_exact : forall b,
  let k := cap (maxBatchSize b) (total b) in
  batch (cycle quiet b) = firstn k (queued b) /\
  (queue (after (cycle quiet b)) menuPriorityHIGH
   = skipn k (queue b menuPriorityHIGH) /\
   queue (after (cycle quiet b)) menuPriorityMID
   = skipn (k - size b menuPriorityHIGH) (queue b menuPriorityMID) /\
   queue (after (cycle quiet b)) menuPriorityLOW
   = skipn (k - size b menuPriorityHIGH - size b menuPriorityMID)
           (queue b menuPriorityLOW)).
Proof.
  intros b k. rewrite cycle_batch, cycle_after.
  set (max := maxBatchSize b).
  change (leaving quiet b menuPriorityLOW)
    with (collect max quiet
            (collect max quiet (collect max quiet (b, []) menuPriorityHIGH)
                     menuPriorityMID) menuPriorityLOW).
  change (before_hold quiet) with (@nil (Action T)).
  cbn [interfere fold_left].
  destruct (collect_quiet_exact max b [] menuPriorityHIGH) as [BH FH].
  destruct (collect max quiet (b, []) menuPriorityHIGH) as [b1 bt1].
  cbn [fst snd] in *.
  destruct (collect_quiet_exact max b1 bt1 menuPriorityMID) as [BM FM].
  destruct (collect max quiet (b1, bt1) menuPriorityMID) as [b2 bt2].
  cbn [fst snd] in *.
  destruct (collect_quiet_exact max b2 bt2 menuPriorityLOW) as [BL FL].
  destruct (collect max quiet (b2, bt2) menuPriorityLOW) as [b3 bt3].
  cbn [fst snd] in *.
  rewrite (FL menuPriorityHIGH), (FL menuPriorityMID), (FL menuPriorityLOW).
  rewrite (FM menuPriorityHIGH), (FM menuPriorityMID), (FM menuPriorityLOW).
  rewrite (FH menuPriorityHIGH), (FH menuPriorityMID), (FH menuPriorityLOW).
  cbn [menuPriority_eqb].
  rewrite (FM menuPriorityLOW), (FH menuPriorityLOW), (FH menuPriorityMID) in BL.
  rewrite (FH menuPriorityMID) in BM.
  cbn [menuPriority_eqb] in BL, BM.
  clear FH FM FL.
  subst bt3 bt2 bt1. cbn [app].
  unfold queued, size, k, total, size. fold max.
  generalize (queue b menuPriorityHIGH) (queue b menuPriorityMID)
             (queue b menuPriorityLOW).
  clearbody max. intros qH qM qL. clear b k b1 b2 b3.
  rewrite firstn3.
  unfold allowance, cap. rewrite !length_app, !length_firstn.
  destruct (N.eqb_spec max 0) as [E|E].
  - cbn [List.length].
    rewrite !firstn_all2, !skipn_all2 by lia.
    rewrite <- app_assoc. repeat split; reflexivity.
  - cbn [List.length]. rewrite Nat.sub_0_r.
    replace (N.to_nat max - Nat.min (N.to_nat max) (List.length qH))
      with (N.to_nat max - List.length qH) by lia.
    replace (N.to_nat max
             - (Nat.min (N.to_nat max) (List.length qH)
                + Nat.min (N.to_nat max - List.length qH) (List.length qM)))
      with (N.to_nat max - List.length qH - List.length qM) by lia.
    rewrite <- app_assoc. repeat split; reflexivity.
Qed.

End TakeFacts.

(** ** Passes and runs without interference, in closed form *)

Section QuietOrder.

Variable T : Type.
Implicit Types (b : RequestQueueBatcher T) (q bt : list T).

Lemma skipn_queued : forall k b b',
  queue b' menuPriorityHIGH = skipn k (queue b menuPriorityHIGH) ->
  queue b' menuPriorityMID
  = skipn (k - size b menuPriorityHIGH) (queue b menuPriorityMID) ->
  queue b' menuPriorityLOW
  = skipn (k - size b menuPriorityHIGH - size b menuPriorityMID)
          (queue b menuPriorityLOW) ->
  queued b' = skipn k (queued b).
Proof.
  intros k b b' HH HM HL. unfold queued, size in *.
  now rewrite HH, HM, HL, !skipn_app.
Qed.

Lemma quiet_pass_splits : forall b,
  batch (cycle quiet b) ++ queued (after (cycle quiet b)) = queued b.
Proof.
  intros b. destruct (cycle_quiet_exact b) as (B & HH & HM & HL).
  rewrite B, (skipn_queued _ _ _ HH HM HL). apply firstn_skipn.
Qed.

Lemma quiet_pass_progress : forall b,
  0 < total b -> 0 < List.length (batch (cycle quiet b)).
Proof.
  intros b Hpos. destruct (cycle_quiet_exact b) as (B & _).
  rewrite B, length_firstn, <- total_queued. unfold cap.
  destruct (N.eqb_spec (maxBatchSize b) 0); lia.
Qed.

Lemma nonempty_app : forall (l1 l2 : list T),
  nonempty (l1 ++ l2) = (nonempty l1 || nonempty l2)%bool.
Proof. intros [|x l1] l2; reflexivity. Qed.

Lemma nonempty_total : forall b, nonempty (queued b) = false <-> total b = 0.
Proof.
  intros b. rewrite total_queued. destruct (queued b); simpl; split;
    intros; congruence.
Qed.

Lemma quiet_pass_event : forall b,
  workToDo (after (cycle quiet (wait b)))
  = nonempty (queued (after (cycle quiet (wait b)))).
Proof.
  intros b.
  destruct (cycle_quiet (wait b))
    as (tH & rH & tM & rM & tL & rL & _ & _ & (AH & AM & AL) & W & _).
  rewrite W. unfold queued. rewrite AH, AM, AL, !nonempty_app.
  cbn [wait workToDo orb]. now rewrite orb_assoc.
Qed.

(** X1. A pass that no other thread interferes with takes the first [k]
    of the queued items, HIGH before MID before LOW, where [k] is
    [maxBatchSize], or the number of items queued when [maxBatchSize] is
    zero; the queues keep the items behind those, in the same order. *)
Theorem quiet_pass_takes_the_front : forall b,
  batch (cycle quiet b)
  = firstn (cap (maxBatchSize b) (total b)) (queued b) /\
  queued (after (cycle quiet b))
  = skipn (cap (maxBatchSize b) (total b)) (queued b) /\
  List.length (batch (cycle quiet b))
  = Nat.min (cap (maxBatchSize b) (total b)) (total b).
Proof.
  intros b. destruct (cycle_quiet_exact b) as (B & HH & HM & HL).
  split; [exact B|]. split.
  - exact (skipn_queued _ _ _ HH HM HL).
  - now rewrite B, length_firstn, total_queued.
Qed.

(** X2. When a pass without interference ends, the event is signalled
    exactly when an item is left in a queue, so the worker then blocks in
    [wait()] exactly when the queues are empty. *)
Theorem worker_blocks_iff_nothing_left : forall b,
  workToDo (after (cycle quiet (wait b)))
  = nonempty (queued (after (cycle quiet (wait b)))) /\
  (fst (iteration quiet (after (cycle quiet (wait b)))) = Blocked
   <-> total (after (cycle quiet (wait b))) = 0).
Proof.
  intros b. split; [apply quiet_pass_event|].
  rewrite <- nonempty_total, <- quiet_pass_event.
  unfold iteration. change (before_wait quiet) with (@nil (Action T)).
  cbn [interfere fold_left].
  destruct (workToDo (after (cycle quiet (wait b)))).
  - destruct (workerShutdown _); simpl; split; discriminate.
  - simpl. split; reflexivity.
Qed.

(** X3. Left alone, a worker whose event is signalled whenever something
    is queued hands the queued items to the consumer in exactly the order
    HIGH, MID, LOW, first in first out within each priority, also across
    the passes that [maxBatchSize] cuts the work into. *)
Theorem quiet_run_hands_over_in_order : forall n b,
  workerShutdown b = false ->
  (0 < total b -> workToDo b = true) ->
  total b <= n ->
  handed (fst (run (repeat quiet n) b)) = queued b /\
  queued (snd (run (repeat quiet n) b)) = [].
Proof.
  induction n as [|n IH]; intros b Hrun Hinv Hn.
  - assert (E : queued b = []).
    { apply length_zero_iff_nil. rewrite <- total_queued. lia. }
    simpl. now rewrite E.
  - cbn [repeat run]. unfold iteration.
    change (before_wait quiet) with (@nil (Action T)).
    cbn [interfere fold_left].
    destruct (workToDo b) eqn:Hw.
    + change (workerShutdown (wait b)) with (workerShutdown b). rewrite Hrun.
      pose proof (quiet_pass_splits (wait b)) as Hsplit.
      pose proof (quiet_pass_event b) as Hev.
      pose proof (quiet_pass_progress (wait b)) as Hprog.
      destruct (cycle_quiet (wait b))
        as (_ & _ & _ & _ & _ & _ & _ & _ & _ & _ & S & _).
      set (c := cycle quiet (wait b)) in *.
      change (queued (wait b)) with (queued b) in Hsplit.
      change (total (wait b)) with (total b) in Hprog.
      change (workerShutdown (wait b)) with (workerShutdown b) in S.
      assert (Hlen : List.length (batch c) + total (after c) = total b).
      { rewrite !total_queued, <- length_app. now rewrite Hsplit. }
      assert (Hinv' : 0 < total (after c) -> workToDo (after c) = true).
      { intros Hpos. rewrite Hev. rewrite total_queued in Hpos.
        destruct (queued (after c)); [simpl in Hpos; lia|reflexivity]. }
      assert (Hn' : total (after c) <= n).
      { destruct (Nat.eq_dec (total b) 0); lia. }
      assert (Hrun' : workerShutdown (after c) = false) by congruence.
      destruct (IH (after c) Hrun' Hinv' Hn') as [Hh Hq].
      destruct (run (repeat quiet n) (after c)) as [ev b''].
      cbn [fst snd] in *. split; [|exact Hq].
      now rewrite handed_app, handed_events, Hh.
    + assert (Hz : total b = 0).
      { destruct (total b); [reflexivity|]. discriminate Hinv. lia. }
      apply IH; auto; lia.
Qed.

End QuietOrder.

(** ** Shutdown *)

Section Shutdown.

Variable T : Type.
Implicit Types (b : RequestQueueBatcher T) (acts : list (Action T)).

(** No action of another thread takes the request to stop back. *)
Lemma act_keeps_shutdown : forall a b,
  workerShutdown b = true -> workerShutdown (act b a) = true.
Proof. intros [] b H; simpl; auto. Qed.

Lemma interfere_keeps_shutdown : forall acts b,
  workerShutdown b = true -> workerShutdown (interfere acts b) = true.
Proof.
  induction acts as [|a acts IH]; intros b H; simpl; auto.
  apply IH, act_keeps_shutdown, H.
Qed.


End Shutdown.

(** ** Pushes and [clear()] *)

Section PushClear.

Variable T : Type.
Implicit Types (b : RequestQueueBatcher T) (il : Interleaving T)
         (acts : list (Action T)) (cargo : list T) (p prio : menuPriority).

Lemma push_each_queue : forall cargo p b p',
  queue (push_each cargo p b) p' =
  if menuPriority_eqb p p' then queue b p' ++ cargo else queue b p'.
Proof.
  induction cargo as [|c cargo IH]; intros p b p'.
  - simpl. rewrite app_nil_r. now destruct (menuPriority_eqb p p').
  - change (push_each (c :: cargo) p b)
      with (push_each cargo p (pushRequest c p b)).
    rewrite IH, pushRequest_queue.
    destruct (menuPriority_eqb p p'); [|reflexivity].
    now rewrite <- app_assoc.
Qed.

Lemma push_each_rest : forall cargo p b,
  workToDo (push_each cargo p b) = (workToDo b || nonempty cargo)%bool /\
  workerShutdown (push_each cargo p b) = workerShutdown b /\
  params (push_each cargo p b) = params b.
Proof.
  induction cargo as [|c cargo IH]; intros p b.
  - simpl. now rewrite orb_false_r.
  - change (push_each (c :: cargo) p b)
      with (push_each cargo p (pushRequest c p b)).
    destruct (IH p (pushRequest c p b)) as (W & S & P).
    rewrite W, S, P. cbn. now rewrite orb_true_r.
Qed.

(** A woken worker that finds the queues empty hands nothing over, takes
    the event and leaves it empty. *)
Lemma empty_pass : forall b,
  total b = 0 ->
  batch (cycle quiet (wait b)) = [] /\
  delivered (cycle quiet (wait b)) = [] /\
  fst (iteration quiet (after (cycle quiet (wait b)))) = Blocked.
Proof.
  intros b Hz.
  assert (E : queued (wait b) = []).
  { apply length_zero_iff_nil. rewrite <- total_queued. exact Hz. }
  pose proof (quiet_pass_splits (wait b)) as Hs. rewrite E in Hs.
  apply app_eq_nil in Hs. destruct Hs as [Hb Hq].
  pose proof (quiet_pass_event b) as Hev. rewrite Hq in Hev.
  split; [exact Hb|]. split.
  - unfold delivered. now rewrite Hb.
  - unfold iteration. change (before_wait quiet) with (@nil (Action T)).
    cbn [interfere fold_left]. now rewrite Hev.
Qed.

Lemma iteration_quiet_woken : forall b,
  workToDo b = true -> workerShutdown b = false ->
  iteration quiet b
  = (Cycled (cycle quiet (wait b)), after (cycle quiet (wait b))).
Proof.
  intros b Hw Hs. unfold iteration.
  change (before_wait quiet) with (@nil (Action T)).
  cbn [interfere fold_left]. rewrite Hw.
  change (workerShutdown (wait b)) with (workerShutdown b). now rewrite Hs.
Qed.

Lemma clear_queue : forall b p, queue (clear b) p = [].
Proof. intros b []; reflexivity. Qed.

Lemma interfere_app : forall acts acts' b,
  interfere (acts ++ acts') b = interfere acts' (interfere acts b).
Proof. intros. unfold interfere. apply fold_left_app. Qed.

(** X5. The vector overload of [pushRequest] queues what as many calls of
    the single-request overload queue, in the same order; but it signals
    the event even for an empty vector, where no call of the other
    overload would have been made. *)
Theorem vector_push_is_repeated_push : forall cargo p b,
  (forall p', queue (pushRequests cargo p b) p'
              = queue (push_each cargo p b) p') /\
  params (pushRequests cargo p b) = params (push_each cargo p b) /\
  workerShutdown (pushRequests cargo p b)
  = workerShutdown (push_each cargo p b) /\
  workToDo (pushRequests cargo p b) = true /\
  workToDo (push_each cargo p b) = (workToDo b || nonempty cargo)%bool.
Proof.
  intros cargo p b. destruct (push_each_rest cargo p b) as (W & S & P).
  split; [|split; [|split; [|split]]].
  - intros p'. now rewrite pushRequests_queue, push_each_queue.
  - now rewrite P.
  - now rewrite S.
  - reflexivity.
  - exact W.
Qed.

(** X6. Pushing an empty vector queues nothing and still wakes the
    worker: with nothing queued, the worker runs a pass that collects an
    empty batch, does not call the consumer, and blocks again. *)
Theorem empty_vector_push_wakes_worker : forall p b,
  (forall p', queue (pushRequests [] p b) p' = queue b p') /\
  (total b = 0 -> workerShutdown b = false ->
   exists c,
     iteration quiet (pushRequests [] p b) = (Cycled c, after c) /\
     batch c = [] /\ delivered c = [] /\
     fst (iteration quiet (after c)) = Blocked).
Proof.
  intros p b.
  assert (Hq : forall p', queue (pushRequests [] p b) p' = queue b p').
  { intros p'. rewrite pushRequests_queue, app_nil_r.
    now destruct (menuPriority_eqb p p'). }
  split; [exact Hq|]. intros Hz Hs.
  exists (cycle quiet (wait (pushRequests [] p b))). split.
  - now apply iteration_quiet_woken.
  - apply empty_pass. unfold total, size in *. now rewrite !Hq.
Qed.

(** X7. [clear()] empties the three queues but leaves the event as it
    is: a worker that a push has signalled and a [clear()] has robbed
    still runs a pass, with an empty batch and no call of the consumer. *)
Theorem clear_leaves_the_event : forall b,
  (forall p, queue (clear b) p = []) /\
  workToDo (clear b) = workToDo b /\
  params (clear b) = params b /\
  (workToDo b = true -> workerShutdown b = false ->
   exists c,
     iteration quiet (clear b) = (Cycled c, after c) /\
     batch c = [] /\ delivered c = [] /\
     fst (iteration quiet (after c)) = Blocked).
Proof.
  intros b. split; [apply clear_queue|]. split; [reflexivity|].
  split; [reflexivity|]. intros Hw Hs.
  exists (cycle quiet (wait (clear b))). split.
  - now apply iteration_quiet_woken.
  - apply empty_pass. reflexivity.
Qed.

(** X8. A [clear()] that runs while the consumer processes a batch does
    not take back what the worker has collected: the pass hands over the
    same batch, with the same limit and the same hold-off, and ends with
    the three queues empty. *)
Theorem clear_during_processing_keeps_batch : forall il b,
  batch (cycle (then_before_hold il clear_actions) b) = batch (cycle il b) /\
  max_used (cycle (then_before_hold il clear_actions) b)
  = max_used (cycle il b) /\
  holdOff (cycle (then_before_hold il clear_actions) b)
  = holdOff (cycle il b) /\
  workToDo (after (cycle (then_before_hold il clear_actions) b))
  = workToDo (after (cycle il b)) /\
  forall p, queue (after (cycle (then_before_hold il clear_actions) b)) p = [].
Proof.
  intros il b.
  assert (HB : batch (cycle (then_before_hold il clear_actions) b)
               = batch (cycle il b)).
  { rewrite !cycle_batch. reflexivity. }
  assert (HA : after (cycle (then_before_hold il clear_actions) b)
               = clear (after (cycle il b))).
  { rewrite !cycle_after.
    change (before_hold (then_before_hold il clear_actions))
      with (before_hold il ++ clear_actions).
    rewrite interfere_app. reflexivity. }
  split; [exact HB|]. split; [now rewrite !cycle_max|]. split; [|split].
  - rewrite !cycle_holdOff, HB, HA. reflexivity.
  - now rewrite HA.
  - intros p. rewrite HA. apply clear_queue.
Qed.

End PushClear.

(** ** A pass under interference *)

Section Interference.

Variable T : Type.
Implicit Types (b : RequestQueueBatcher T) (il : Interleaving T)
         (acts : list (Action T)) (q bt : list T) (p prio : menuPriority).

(** The loop body at one priority moves the first [allowance] items of
    the queue it finds under the lock. *)
Lemma collect_exact : forall max il b bt prio,
  snd (collect max il (b, bt) prio)
  = bt ++ firstn (allowance max bt (queue (interfere (before_lock il prio) b) prio))
                 (queue (interfere (before_lock il prio) b) prio).
Proof.
  intros. rewrite collect_snd. destruct (room max bt) eqn:Hroom.
  - now rewrite drain_exact.
  - rewrite (room_allowance _ _ _ Hroom). cbn [firstn]. now rewrite app_nil_r.
Qed.

Lemma leaving_exact : forall il b prio,
  snd (leaving il b prio)
  = snd (reaching il b prio)
    ++ firstn (allowance (max_used (cycle il b)) (snd (reaching il b prio))
                         (found il b prio))
              (found il b prio).
Proof.
  intros. rewrite cycle_max. unfold leaving, found.
  destruct (reaching il b prio) as [b' bt]. apply collect_exact.
Qed.

Lemma batch_front : forall il b,
  batch (cycle il b)
  = firstn (cap (max_used (cycle il b))
                (List.length (found il b menuPriorityHIGH
                              ++ found il b menuPriorityMID
                              ++ found il b menuPriorityLOW)))
           (found il b menuPriorityHIGH ++ found il b menuPriorityMID
            ++ found il b menuPriorityLOW).
Proof.
  intros il b. rewrite cycle_batch.
  rewrite (leaving_exact il b menuPriorityLOW), reaching_LOW.
  rewrite (leaving_exact il b menuPriorityMID), reaching_MID.
  rewrite (leaving_exact il b menuPriorityHIGH), reaching_HIGH.
  cbn [snd app].
  generalize (found il b menuPriorityHIGH) (found il b menuPriorityMID)
             (found il b menuPriorityLOW) (max_used (cycle il b)).
  intros fH fM fL max.
  rewrite firstn3. unfold allowance, cap.
  rewrite !length_app, !length_firstn.
  destruct (N.eqb_spec max 0) as [E|E].
  - rewrite !firstn_all2 by lia. now rewrite <- app_assoc.
  - cbn [List.length]. rewrite Nat.sub_0_r.
    replace (N.to_nat max - Nat.min (N.to_nat max) (List.length fH))
      with (N.to_nat max - List.length fH) by lia.
    replace (N.to_nat max
             - (Nat.min (N.to_nat max) (List.length fH)
                + Nat.min (N.to_nat max - List.length fH) (List.length fM)))
      with (N.to_nat max - List.length fH - List.length fM) by lia.
    now rewrite <- app_assoc.
Qed.

(** X9. Whatever the other threads do during a pass, the batch is the
    first [k] items of the HIGH queue, the MID queue and the LOW queue
    put one behind the other, each queue taken as the worker finds it
    under its lock, where [k] is the [max] the pass read, or the number
    of items found when that is zero.  So when the HIGH queue alone
    holds [max] items or more, the pass serves no other priority. *)
Theorem batch_is_front_of_found : forall il b,
  batch (cycle il b)
  = firstn (cap (max_used (cycle il b))
                (List.length (found il b menuPriorityHIGH
                              ++ found il b menuPriorityMID
                              ++ found il b menuPriorityLOW)))
           (found il b menuPriorityHIGH ++ found il b menuPriorityMID
            ++ found il b menuPriorityLOW) /\
  (max_used (cycle il b) <> 0%N ->
   N.to_nat (max_used (cycle il b))
   <= List.length (found il b menuPriorityHIGH) ->
   batch (cycle il b)
   = firstn (N.to_nat (max_used (cycle il b))) (found il b menuPriorityHIGH)).
Proof.
  intros il b. split; [apply batch_front|].
  intros Hmax Hlen. rewrite batch_front. unfold cap.
  destruct (N.eqb_spec (max_used (cycle il b)) 0); [contradiction|].
  rewrite firstn_app.
  replace (N.to_nat (max_used (cycle il b))
           - List.length (found il b menuPriorityHIGH)) with 0 by lia.
  cbn [firstn]. now rewrite app_nil_r.
Qed.

(** *** Conservation *)

Lemma pushed_app : forall p acts acts',
  pushed p (acts ++ acts') = pushed p acts ++ pushed p acts'.
Proof.
  intros p acts acts'. induction acts as [|a acts IH]; [reflexivity|].
  destruct a; cbn [app pushed]; auto;
    destruct (menuPriority_eqb priority p); cbn [app]; rewrite IH; auto.
  now rewrite app_assoc.
Qed.

(** Without a [clear()], the other threads only append to the queues. *)
Lemma interfere_no_clear : forall acts b p,
  no_clear acts = true ->
  queue (interfere acts b) p = queue b p ++ pushed p acts.
Proof.
  induction acts as [|a acts IH]; intros b p H.
  - simpl. now rewrite app_nil_r.
  - unfold no_clear in H. cbn [forallb] in H.
    apply andb_true_iff in H. destruct H as [Ha H].
    change (interfere (a :: acts) b) with (interfere acts (act b a)).
    rewrite (IH _ p H).
    destruct a; cbn [is_clear negb] in Ha; try discriminate; cbn [pushed].
    + change (act b (DoPush cargo priority)) with (pushRequest cargo priority b).
      rewrite pushRequest_queue.
      destruct (menuPriority_eqb priority p); auto.
      now rewrite <- app_assoc.
    + change (act b (DoPushVector cargo priority))
        with (pushRequests cargo priority b).
      rewrite pushRequests_queue.
      destruct (menuPriority_eqb priority p); auto.
      now rewrite <- app_assoc.
    + reflexivity.
    + reflexivity.
Qed.

Lemma no_clear_app : forall acts acts',
  no_clear (acts ++ acts') = true ->
  no_clear acts = true /\ no_clear acts' = true.
Proof.
  intros acts acts' H. unfold no_clear in *. rewrite forallb_app in H.
  now apply andb_true_iff in H.
Qed.

(** The loop body at one priority: what it adds to the batch and what it
    leaves in the queue is what it found, and then what was pushed. *)
Lemma collect_conserves : forall max il b bt prio,
  no_clear (before_lock il prio) = true ->
  no_clear (before_check il prio) = true ->
  exists taken,
    snd (collect max il (b, bt) prio) = bt ++ taken /\
    forall p,
      (if menuPriority_eqb prio p then taken else [])
      ++ queue (fst (collect max il (b, bt) prio)) p
      = queue b p ++ pushed p (before_lock il prio ++ before_check il prio).
Proof.
  intros max il b bt prio HL HC.
  rewrite collect_snd, collect_fst. cbv zeta.
  assert (Hsig : forall b3 p,
             queue (if negb (empty b3 prio) then signal b3 else b3) p
             = queue b3 p) by (intros; destruct (negb _); reflexivity).
  destruct (room max bt).
  - destruct (drain_takes max (queue (interfere (before_lock il prio) b) prio) bt)
      as (taken & Hb & Hq).
    exists taken. split; [exact Hb|]. intros p.
    rewrite Hsig, (interfere_no_clear _ _ p HC), queue_set_queue, pushed_app.
    destruct (menuPriority_eqb prio p) eqn:E.
    + apply menuPriority_eqb_eq in E. subst p.
      rewrite app_assoc, <- Hq, (interfere_no_clear _ _ prio HL).
      now rewrite <- app_assoc.
    + cbn [app]. rewrite (interfere_no_clear _ _ p HL).
      now rewrite <- app_assoc.
  - exists []. split; [now rewrite app_nil_r|]. intros p.
    rewrite Hsig, (interfere_no_clear _ _ p HC),
      (interfere_no_clear _ _ p HL), pushed_app.
    destruct (menuPriority_eqb prio p); cbn [app]; now rewrite <- app_assoc.
Qed.

(** X10. When no other thread calls [clear()] during a pass, no item is
    lost and none is handed over twice: at each priority, the part of the
    batch taken from it, followed by the queue at the end of the pass, is
    the queue at the start of the pass followed by what was pushed to it
    during the pass, in the order of the pushes. *)
Theorem pass_conserves_items : forall il b,
  no_clear (all_actions il) = true ->
  exists high mid low,
    batch (cycle il b) = high ++ mid ++ low /\
    high ++ queue (after (cycle il b)) menuPriorityHIGH
    = queue b menuPriorityHIGH ++ pushed menuPriorityHIGH (all_actions il) /\
    mid ++ queue (after (cycle il b)) menuPriorityMID
    = queue b menuPriorityMID ++ pushed menuPriorityMID (all_actions il) /\
    low ++ queue (after (cycle il b)) menuPriorityLOW
    = queue b menuPriorityLOW ++ pushed menuPriorityLOW (all_actions il).
Proof.
  intros il b H. unfold all_actions in *.
  apply no_clear_app in H. destruct H as [Hmax H].
  apply no_clear_app in H. destruct H as [HlH H].
  apply no_clear_app in H. destruct H as [HcH H].
  apply no_clear_app in H. destruct H as [HlM H].
  apply no_clear_app in H. destruct H as [HcM H].
  apply no_clear_app in H. destruct H as [HlL H].
  apply no_clear_app in H. destruct H as [HcL Hhold].
  rewrite cycle_batch, cycle_after.
  set (max := maxBatchSize (interfere (before_max il) b)).
  change (leaving il b menuPriorityLOW)
    with (collect max il
            (collect max il
               (collect max il (interfere (before_max il) b, [])
                        menuPriorityHIGH)
               menuPriorityMID) menuPriorityLOW).
  pose proof (interfere_no_clear _ b menuPriorityHIGH Hmax) as Q0H.
  pose proof (interfere_no_clear _ b menuPriorityMID Hmax) as Q0M.
  pose proof (interfere_no_clear _ b menuPriorityLOW Hmax) as Q0L.
  set (b0 := interfere (before_max il) b) in *.
  destruct (collect_conserves max il b0 [] menuPriorityHIGH HlH HcH)
    as (high & BH & QH).
  destruct (collect max il (b0, []) menuPriorityHIGH) as [b1 bt1].
  cbn [fst snd] in *.
  destruct (collect_conserves max il b1 bt1 menuPriorityMID HlM HcM)
    as (mid & BM & QM).
  destruct (collect max il (b1, bt1) menuPriorityMID) as [b2 bt2].
  cbn [fst snd] in *.
  destruct (collect_conserves max il b2 bt2 menuPriorityLOW HlL HcL)
    as (low & BL & QL).
  destruct (collect max il (b2, bt2) menuPriorityLOW) as [b3 bt3].
  cbn [fst snd] in *.
  exists high, mid, low. subst bt3 bt2 bt1. cbn [app].
  split; [now rewrite <- app_assoc|].
  pose proof (QH menuPriorityHIGH) as HH. pose proof (QH menuPriorityMID) as HM.
  pose proof (QH menuPriorityLOW) as HL.
  pose proof (QM menuPriorityHIGH) as MH. pose proof (QM menuPriorityMID) as MM.
  pose proof (QM menuPriorityLOW) as ML.
  pose proof (QL menuPriorityHIGH) as LH. pose proof (QL menuPriorityMID) as LM.
  pose proof (QL menuPriorityLOW) as LL.
  cbn [menuPriority_eqb app] in *.
  rewrite !(interfere_no_clear _ b3 _ Hhold), !pushed_app.
  split; [|split].
  - rewrite LH, MH, !pushed_app, !app_assoc, HH, Q0H, !pushed_app.
    now rewrite <- !app_assoc.
  - rewrite LM, !pushed_app, !app_assoc, MM, HM, Q0M, !pushed_app.
    now rewrite <- !app_assoc.
  - rewrite !app_assoc, LL, ML, HL, Q0L, !pushed_app.
    now rewrite <- !app_assoc.
Qed.

End Interference.

(** ** The hold-off parameters *)

Section HoldOffArith.

Local Unset Implicit Arguments.

Lemma all_from_spec : forall f n start m,
  all_from f start n = true ->
  (start <= m < start + N.of_nat n)%N -> f m = true.
Proof.
  intros f n; induction n as [|n IH]; intros start m H Hm; [lia|].
  cbn [all_from] in H. apply andb_true_iff in H. destruct H as [H0 H].
  destruct (N.eq_dec m start) as [->|Hne]; [exact H0|].
  apply (IH (N.succ start)); [exact H|lia].
Qed.

(** The double of a [size_t] is finite. *)
Lemma double_of_size_finite : forall n,
  (n < 2 ^ 64)%N -> dfinite (double_of_unsigned n) = true.
Proof.
  intros [|p] Hn; [reflexivity|].
  unfold double_of_unsigned, binary_normalize. cbn [Z.of_N].
  assert (Hd : (Zpos (digits2_pos p) <= 64)%Z).
  { apply (Zdigits2_le (Zpos p)); lia. }
  destruct (binary_round_box false p 0 ltac:(lia) ltac:(lia))
    as (p' & e'' & -> & _). reflexivity.
Qed.

(** With a slope of zero the hold-off is [holdOffFix] for every batch. *)
Lemma zero_slope : forall (fix_ : double) n,
  dnegzero fix_ = false -> (n < 2 ^ 64)%N ->
  dadd fix_ (dmul d0 (double_of_unsigned n)) = fix_.
Proof.
  intros fix_ n Hfix Hn. pose proof (double_of_size_finite n Hn) as Hf.
  assert (Hz : exists s, dmul d0 (double_of_unsigned n) = S754_zero s).
  { destruct (double_of_unsigned n) as [s|s| |s m e]; try discriminate;
      simpl; eauto. }
  destruct Hz as [s ->]. now apply dadd_zero.
Qed.

End HoldOffArith.

Section HoldOffFacts.

Variable T : Type.
Implicit Types (b : RequestQueueBatcher T).

(** X11. [minHoldOff()] gives back the number of milliseconds that
    [setParams] was called with for every value up to one second, and
    that number or one less for every value up to ten seconds. *)
Theorem minHoldOff_round_trip : forall max m hi b,
  ((m <= 1000)%N -> minHoldOff (setParams max m hi b) = Some m) /\
  ((m <= 10000)%N ->
   minHoldOff (setParams max m hi b) = Some m \/
   minHoldOff (setParams max m hi b) = Some (m - 1)%N).
Proof.
  intros max m hi b.
  change (minHoldOff (setParams max m hi b))
    with (minHoldOff (construct unit 1 m 0)).
  split; intros Hm.
  - assert (H : all_from minHoldOff_exact 0 (N.to_nat 1001) = true)
      by (vm_compute; reflexivity).
    pose proof (all_from_spec _ _ _ m H ltac:(lia)) as Hx.
    unfold minHoldOff_exact in Hx.
    destruct (minHoldOff (construct unit 1 m 0)) as [r|]; [|discriminate].
    apply N.eqb_eq in Hx. now subst.
  - assert (H : all_from minHoldOff_near 0 (N.to_nat 10001) = true)
      by (vm_compute; reflexivity).
    pose proof (all_from_spec _ _ _ m H ltac:(lia)) as Hx.
    unfold minHoldOff_near in Hx.
    destruct (minHoldOff (construct unit 1 m 0)) as [r|]; [|discriminate].
    apply orb_true_iff in Hx. destruct Hx as [Hx|Hx]; apply N.eqb_eq in Hx.
    + left. now subst.
    + right. f_equal. lia.
Qed.

(** X12. After [setParams] with a batch limit and [maxHoldOff = 0], the
    hold-off does not depend on the size of the batch: it is
    [minHoldOff / 1e3] seconds after every pass. *)
Theorem zero_maxHoldOff_gives_constant_holdOff : forall m lo b n,
  m <> 0%N -> (N.of_nat n < 2 ^ 64)%N ->
  holdOffVar (setParams m lo 0 b) = d0 /\
  holdOff_of (params (setParams m lo 0 b)) n
  = ddiv (double_of_unsigned lo) d1e3.
Proof.
  intros m lo b n Hm Hn.
  assert (Hv : holdOffVar (setParams m lo 0 b) = d0).
  { cbn [setParams holdOffVar]. destruct (N.eqb_spec m 0); [contradiction|].
    reflexivity. }
  split; [exact Hv|].
  unfold holdOff_of, params. cbn [p_holdOffFix p_holdOffVar].
  rewrite Hv, setParams_holdOffFix.
  apply zero_slope; [apply hold_fix_not_negzero|exact Hn].
Qed.

(** X13. After [setParams] with a batch limit of [unsigned int] size and
    [maxHoldOff = 0], the accessor [maxHoldOff()] does not return 0 but
    what [minHoldOff()] returns. *)
Theorem maxHoldOff_is_minHoldOff_when_zero : forall m lo b,
  m <> 0%N -> unsigned_int m ->
  maxHoldOff (setParams m lo 0 b) = minHoldOff (setParams m lo 0 b).
Proof.
  intros m lo b Hm Hu. unfold maxHoldOff, minHoldOff.
  assert (Hv : holdOffVar (setParams m lo 0 b) = d0).
  { cbn [setParams holdOffVar]. destruct (N.eqb_spec m 0); [contradiction|].
    reflexivity. }
  rewrite Hv. change (maxBatchSize (setParams m lo 0 b)) with m.
  rewrite zero_slope; [reflexivity|apply setParams_fix_not_negzero|].
  unfold unsigned_int in Hu. 
  apply N.lt_trans with (2 ^ 32)%N; [exact Hu|reflexivity].
Qed.

End HoldOffFacts.

(** ** Full batches, and a shutdown during a pass *)

Section PassEnd.

Variable T : Type.
Implicit Types (b : RequestQueueBatcher T) (il : Interleaving T)
         (acts : list (Action T)) (prio : menuPriority).

(** X14. A pass that no other thread interferes with leaves items in the
    queues only behind a full batch: if something is queued when it ends,
    [maxBatchSize] is not zero and the batch holds exactly that many
    items. *)
Theorem work_left_only_behind_full_batch : forall b,
  queued (after (cycle quiet b)) <> [] ->
  maxBatchSize b <> 0%N /\
  List.length (batch (cycle quiet b)) = N.to_nat (maxBatchSize b).
Proof.
  intros b Hrest. destruct (cycle_quiet_exact b) as (B & HH & HM & HL).
  rewrite (skipn_queued _ _ _ HH HM HL) in Hrest.
  assert (Hlt : cap (maxBatchSize b) (total b) < total b).
  { destruct (Nat.lt_ge_cases (cap (maxBatchSize b) (total b)) (total b))
      as [|Hge]; [assumption|].
    exfalso. apply Hrest. apply skipn_all2. now rewrite <- total_queued. }
  rewrite B, length_firstn, <- total_queued. unfold cap in *.
  destruct (N.eqb_spec (maxBatchSize b) 0); [lia|]. split; [assumption|lia].
Qed.

Lemma interfere_shutdown : forall acts b,
  In DoShutdown acts ->
  workerShutdown (interfere acts b) = true /\
  workToDo (interfere acts b) = true.
Proof.
  induction acts as [|a acts IH]; intros b H; [contradiction|].
  change (interfere (a :: acts) b) with (interfere acts (act b a)).
  destruct H as [->|H]; [|now apply IH].
  split; [now apply interfere_keeps_shutdown|now apply interfere_keeps_signal].
Qed.

Lemma collect_keeps_shutdown : forall max il sb prio,
  workerShutdown (fst sb) = true ->
  workerShutdown (fst (collect max il sb prio)) = true.
Proof.
  intros max il [b bt] prio H. rewrite collect_fst. cbv zeta. cbn [fst] in H.
  match goal with |- workerShutdown (if negb (empty ?b3 _) then _ else _) = _ =>
    assert (H3 : workerShutdown b3 = true) end.
  { apply interfere_keeps_shutdown. destruct (room max bt); cbn;
      apply interfere_keeps_shutdown; exact H. }
  destruct (negb _); exact H3.
Qed.

Lemma collect_shutdown : forall max il sb prio,
  (workerShutdown (fst sb) = true /\ workToDo (fst sb) = true) \/
  In DoShutdown (before_lock il prio) \/ In DoShutdown (before_check il prio) ->
  workerShutdown (fst (collect max il sb prio)) = true /\
  workToDo (fst (collect max il sb prio)) = true.
Proof.
  intros max il [b bt] prio [[Hs Hw]|H].
  - split; [now apply collect_keeps_shutdown|now apply collect_keeps_signal].
  - rewrite collect_fst. cbv zeta.
    match goal with |- workerShutdown (if negb (empty ?b3 _) then _ else _) = _ /\ _ =>
      assert (H3 : workerShutdown b3 = true /\ workToDo b3 = true) end.
    { destruct H as [H|H].
      - destruct (interfere_shutdown _ b H) as [Hs Hw].
        split; [apply interfere_keeps_shutdown|apply interfere_keeps_signal];
          destruct (room max bt); assumption.
      - now apply interfere_shutdown. }
    destruct (negb _); [split; [apply H3|reflexivity]|exact H3].
Qed.

(** X15. A shutdown that the destructor requests while a pass is under
    way does not stop that pass; the object the pass leaves has the flag
    set and the event signalled, so the next iteration leaves the loop,
    whatever the queues still hold. *)
Theorem shutdown_during_pass : forall il b,
  In DoShutdown (all_actions il) ->
  workerShutdown (after (cycle il b)) = true /\
  workToDo (after (cycle il b)) = true /\
  forall il', iteration il' (after (cycle il b))
              = (Exited, wait (interfere (before_wait il') (after (cycle il b)))).
Proof.
  intros il b H.
  assert (Hstop : workerShutdown (after (cycle il b)) = true /\
                  workToDo (after (cycle il b)) = true).
  { rewrite cycle_after. unfold all_actions in H.
    set (max := maxBatchSize (interfere (before_max il) b)).
    change (leaving il b menuPriorityLOW)
      with (collect max il
              (collect max il
                 (collect max il (interfere (before_max il) b, [])
                          menuPriorityHIGH)
                 menuPriorityMID) menuPriorityLOW).
    assert (Hkeep : forall b',
               workerShutdown b' = true /\ workToDo b' = true ->
               workerShutdown (interfere (before_hold il) b') = true /\
               workToDo (interfere (before_hold il) b') = true).
    { intros b' [Hs Hw].
      split; [now apply interfere_keeps_shutdown|now apply interfere_keeps_signal]. }
    repeat (apply in_app_or in H; destruct H as [H|H]).
    - apply Hkeep. do 3 (apply collect_shutdown; left).
      now apply interfere_shutdown.
    - apply Hkeep. do 2 (apply collect_shutdown; left).
      apply collect_shutdown. right; left; exact H.
    - apply Hkeep. do 2 (apply collect_shutdown; left).
      apply collect_shutdown. right; right; exact H.
    - apply Hkeep. apply collect_shutdown; left.
      apply collect_shutdown. right; left; exact H.
    - apply Hkeep. apply collect_shutdown; left.
      apply collect_shutdown. right; right; exact H.
    - apply Hkeep. apply collect_shutdown. right; left; exact H.
    - apply Hkeep. apply collect_shutdown. right; right; exact H.
    - now apply interfere_shutdown. }
  destruct Hstop as [Hs Hw]. split; [exact Hs|]. split; [exact Hw|].
  intros il'. unfold iteration.
  rewrite (interfere_keeps_signal _ _ Hw).
  change (workerShutdown (wait ?x)) with (workerShutdown x).
  now rewrite (interfere_keeps_shutdown _ _ Hs).
Qed.

End PassEnd.

(* ================================================================== *)
(** * Part III: the statements at concrete inputs                      *)
(* ================================================================== *)

(** [S1] of the scenarios: three low, two mid, one high, pushed in that
    order; one pass hands them over high first. *)
Example priority_precedence_scenario :
  batch (cycle quiet
               (wait (pushRequest 6 menuPriorityHIGH
                     (pushRequests [4; 5] menuPriorityMID
                     (pushRequests [1; 2; 3] menuPriorityLOW
                                   (construct nat 10 0 0))))))
  = [6; 4; 5; 1; 2; 3].
Proof. reflexivity. Qed.

(** [S2]: a cap of two and five low requests give batches of 2, 2 and 1. *)
Example cap_with_residue_scenario :
  fst (run (repeat quiet 5) (pushRequests [1; 2; 3; 4; 5] menuPriorityLOW
                                          (construct nat 2 0 0)))
  = [ProcessRequests [1; 2]; ProcessRequests [3; 4]; ProcessRequests [5]].
Proof. reflexivity. Qed.

(** [S3]: with a cap of one, a high request pushed between two passes
    overtakes the mid request that was waiting. *)
Example starvation_scenario :
  fst (run [quiet; push_high_before_wait; quiet] high_then_mid)
  = [ProcessRequests [1]; ProcessRequests [3]; ProcessRequests [2]].
Proof. reflexivity. Qed.

(** [S4]: [(10, 10, 100)] and a batch of five give a sleep of 0.055 s. *)
Example holdOff_interpolation_scenario :
  fst (run [quiet] (pushRequests [1; 2; 3; 4; 5] menuPriorityLOW
                                 (construct nat 10 10 100)))
  = [ProcessRequests [1; 2; 3; 4; 5];
     Sleep (ddiv (double_of_unsigned 55) d1e3)].
Proof. reflexivity. Qed.

(** Witness of C2. *)
Lemma batch_size_capped_witness :
  max_used (cycle quiet five_low_cap_two) <> 0%N /\
  (N.of_nat (List.length (batch (cycle quiet five_low_cap_two)))
   <= max_used (cycle quiet five_low_cap_two))%N.
Proof.
  split.
  - vm_compute. discriminate.
  - apply (batch_size_capped quiet five_low_cap_two). vm_compute. discriminate.
Defined.

(** Witness of C4: the pass over [five_low_cap_two] takes two requests, sees
    three left at the low priority, and signals. *)
Lemma residue_wakes_worker_again_witness :
  (residue_seen quiet five_low_cap_two menuPriorityLOW = true /\
   workerShutdown (after (cycle quiet five_low_cap_two)) = false) /\
  workToDo (after (cycle quiet five_low_cap_two)) = true /\
  total (snd (run (repeat quiet (total (after (cycle quiet five_low_cap_two))))
                  (after (cycle quiet five_low_cap_two)))) = 0.
Proof.
  split; [split; reflexivity|]. split.
  - apply (proj1 (residue_wakes_worker_again quiet five_low_cap_two)
                 menuPriorityLOW).
    reflexivity.
  - apply (proj2 (residue_wakes_worker_again quiet five_low_cap_two)).
    reflexivity.
Defined.

(** Witness of C5: a wake with nothing queued, [holdOffFix] 0.01 s. *)
Lemma delivery_iff_batch_and_idle_holdoff_witness :
  ((forall prio, found quiet idle_wake prio = []) /\
   params_sound (after (cycle quiet idle_wake))) /\
  events (cycle quiet idle_wake) = [Sleep (ddiv (double_of_unsigned 10) d1e3)] /\
  holdOff (cycle quiet idle_wake) = holdOffFix (after (cycle quiet idle_wake)).
Proof.
  assert (Hempty : forall prio, found quiet idle_wake prio = [])
    by (intros []; reflexivity).
  assert (Hsound : params_sound (after (cycle quiet idle_wake)))
    by (split; reflexivity).
  split; [split; [exact Hempty | exact Hsound]|].
  split; [reflexivity|].
  apply (proj2 (proj2 (delivery_iff_batch_and_idle_holdoff quiet idle_wake)
                      Hempty) Hsound).
Defined.

(** Counterexample to C7 as stated: the pass over [three_low] reads
    [max = 10] from the block [(10, 0.009, 0.01)] and computes its hold-off
    from the block [(5, 0.036, 0.02)] that [setParams(5, 20, 200)] has
    stored in between; no single block gives both. *)
Lemma torn_parameter_snapshot :
  ~ one_snapshot setParams_during_processing three_low.
Proof.
  intros (P & [HP|HP] & Hmax & Hhold); subst P.
  - vm_compute in Hhold. discriminate Hhold.
  - vm_compute in Hmax. discriminate Hmax.
Qed.

(** Witness of C7 as the source has it. *)
Lemma two_parameter_reads_per_pass_witness :
  ((forall prio, existsb (@is_setParams nat) (before_lock quiet prio) = false) /\
   (forall prio, existsb (@is_setParams nat) (before_check quiet prio) = false) /\
   existsb (@is_setParams nat) (before_hold quiet) = false) /\
  params_at_hold quiet three_low = params_at_max quiet three_low /\
  one_snapshot quiet three_low.
Proof.
  split; [repeat split; reflexivity|].
  apply (proj2 (proj2 (two_parameter_reads_per_pass quiet three_low)));
    reflexivity.
Defined.

(** Counterexample to C8 as stated: a backslash before the letter t is
    emitted, as the last token of the corpus input with the escaped
    backslash shows too. *)
Lemma backslash_before_other_character_is_kept :
  ~ escapes_any_character splitString.
Proof.
  intros H. specialize (H "t"%char "."%char). vm_compute in H. discriminate H.
Qed.

(** Witness of C8 as the corpus has it. *)
Lemma backslash_escapes_the_delimiter_witness :
  "."%char <> backslash /\
  splitString ("one" ++ String backslash (String "."%char "two"))%string "."%char
  = ["one.two"%string].
Proof.
  assert (H : "."%char <> backslash) by discriminate.
  split; [exact H|].
  exact (proj1 (backslash_escapes_the_delimiter "one"%string "two"%string H)).
Defined.

(** Counterexample to C9 as stated: the input with the escaped backslash
    is not 21 characters long. *)
Lemma escaped_backslashes_input_is_not_21_long :
  ~ corpus_outputs splitString 21.
Proof.
  unfold corpus_outputs. intros (_ & _ & _ & _ & _ & _ & _ & Hlen & _).
  vm_compute in Hlen. discriminate Hlen.
Qed.

(** Witness of C10 with a stale, non-zero [holdOffVar]:
    [setParams(10, 10, 100)], then [setParams(0, 7, 50)]. *)
Lemma maxHoldOff_is_minHoldOff_when_unlimited_witness :
  (maxBatchSize (setParams 0 7 50 (construct nat 10 10 100)) = 0%N /\
   dfinite (holdOffVar (setParams 0 7 50 (construct nat 10 10 100))) = true) /\
  maxHoldOff (setParams 0 7 50 (construct nat 10 10 100))
  = minHoldOff (setParams 0 7 50 (construct nat 10 10 100)).
Proof.
  split; [split; reflexivity|].
  apply (maxHoldOff_is_minHoldOff_when_unlimited
           (setParams 0 7 50 (construct nat 10 10 100)));
    reflexivity.
Defined.

(** Witness of X2: one request, no batch limit; after the pass nothing is
    left and the worker blocks. *)
Lemma worker_blocks_iff_nothing_left_witness :
  total (after (cycle quiet (wait one_high_unlimited))) = 0 /\
  fst (iteration quiet (after (cycle quiet (wait one_high_unlimited))))
  = Blocked.
Proof.
  split; [reflexivity|].
  apply (proj2 (proj2 (@worker_blocks_iff_nothing_left nat one_high_unlimited))).
  reflexivity.
Defined.

(** Witness of X3: five low requests and a limit of two. *)
Lemma quiet_run_hands_over_in_order_witness :
  (workerShutdown five_low_pending = false /\
   (0 < total five_low_pending -> workToDo five_low_pending = true) /\
   total five_low_pending <= 5) /\
  handed (fst (run (repeat quiet 5) five_low_pending)) = [1; 2; 3; 4; 5] /\
  queued (snd (run (repeat quiet 5) five_low_pending)) = [].
Proof.
  assert (H1 : workerShutdown five_low_pending = false) by reflexivity.
  assert (H2 : 0 < total five_low_pending -> workToDo five_low_pending = true)
    by (intros _; reflexivity).
  assert (H3 : total five_low_pending <= 5) by (vm_compute; lia).
  split; [repeat split; assumption|].
  exact (@quiet_run_hands_over_in_order nat 5 five_low_pending H1 H2 H3).
Defined.


(** Witness of X6: an empty vector pushed to a fresh batcher. *)
Lemma empty_vector_push_wakes_worker_witness :
  (total (construct nat 10 0 0) = 0 /\
   workerShutdown (construct nat 10 0 0) = false) /\
  exists c,
    iteration quiet (pushRequests [] menuPriorityLOW (construct nat 10 0 0))
    = (Cycled c, after c) /\
    batch c = [] /\ delivered c = [] /\
    fst (iteration quiet (after c)) = Blocked.
Proof.
  split; [split; reflexivity|].
  apply (proj2 (@empty_vector_push_wakes_worker nat menuPriorityLOW
                                                (construct nat 10 0 0)));
    reflexivity.
Defined.

(** Witness of X7: a push, then [clear()], then the worker. *)
Lemma clear_leaves_the_event_witness :
  (workToDo one_high_unlimited = true /\
   workerShutdown one_high_unlimited = false) /\
  exists c,
    iteration quiet (clear one_high_unlimited) = (Cycled c, after c) /\
    batch c = [] /\ delivered c = [] /\
    fst (iteration quiet (after c)) = Blocked.
Proof.
  split; [split; reflexivity|].
  apply (proj2 (proj2 (proj2 (@clear_leaves_the_event nat one_high_unlimited))));
    reflexivity.
Defined.

(** Witness of X9: a limit of one and one high request; the mid request
    is not served. *)
Lemma batch_is_front_of_found_witness :
  (max_used (cycle quiet (wait high_then_mid)) <> 0%N /\
   N.to_nat (max_used (cycle quiet (wait high_then_mid)))
   <= List.length (found quiet (wait high_then_mid) menuPriorityHIGH)) /\
  batch (cycle quiet (wait high_then_mid))
  = firstn (N.to_nat (max_used (cycle quiet (wait high_then_mid))))
           (found quiet (wait high_then_mid) menuPriorityHIGH).
Proof.
  assert (H1 : max_used (cycle quiet (wait high_then_mid)) <> 0%N)
    by (vm_compute; discriminate).
  assert (H2 : N.to_nat (max_used (cycle quiet (wait high_then_mid)))
               <= List.length (found quiet (wait high_then_mid) menuPriorityHIGH))
    by (vm_compute; lia).
  split; [split; assumption|].
  exact (proj2 (@batch_is_front_of_found nat quiet (wait high_then_mid)) H1 H2).
Defined.

(** Witness of X10: pushes all along the pass over [three_low]. *)
Lemma pass_conserves_items_witness :
  no_clear (all_actions pushes_along_the_pass) = true /\
  exists high mid low,
    batch (cycle pushes_along_the_pass three_low) = high ++ mid ++ low /\
    high ++ queue (after (cycle pushes_along_the_pass three_low)) menuPriorityHIGH
    = queue three_low menuPriorityHIGH
      ++ pushed menuPriorityHIGH (all_actions pushes_along_the_pass) /\
    mid ++ queue (after (cycle pushes_along_the_pass three_low)) menuPriorityMID
    = queue three_low menuPriorityMID
      ++ pushed menuPriorityMID (all_actions pushes_along_the_pass) /\
    low ++ queue (after (cycle pushes_along_the_pass three_low)) menuPriorityLOW
    = queue three_low menuPriorityLOW
      ++ pushed menuPriorityLOW (all_actions pushes_along_the_pass).
Proof.
  split; [reflexivity|].
  apply (@pass_conserves_items nat pushes_along_the_pass three_low). reflexivity.
Defined.

(** Witness of X11: one second, and one millisecond more. *)
Lemma minHoldOff_round_trip_witness :
  ((1000 <= 1000)%N /\ (1001 <= 10000)%N) /\
  minHoldOff (setParams 1 1000 0 three_low) = Some 1000%N /\
  (minHoldOff (setParams 1 1001 0 three_low) = Some 1001%N \/
   minHoldOff (setParams 1 1001 0 three_low) = Some (1001 - 1)%N).
Proof.
  assert (H1 : (1000 <= 1000)%N) by lia.
  assert (H2 : (1001 <= 10000)%N) by lia.
  split; [split; assumption|]. split.
  - exact (proj1 (@minHoldOff_round_trip nat 1 1000 0 three_low) H1).
  - exact (proj2 (@minHoldOff_round_trip nat 1 1001 0 three_low) H2).
Defined.

(** Witness of X12: [setParams(10, 10, 0)] and a batch of five. *)
Lemma zero_maxHoldOff_gives_constant_holdOff_witness :
  (10%N <> 0%N /\ (N.of_nat 5 < 2 ^ 64)%N) /\
  holdOffVar (setParams 10 10 0 three_low) = d0 /\
  holdOff_of (params (setParams 10 10 0 three_low)) 5
  = ddiv (double_of_unsigned 10) d1e3.
Proof.
  assert (H1 : 10%N <> 0%N) by discriminate.
  assert (H2 : (N.of_nat 5 < 2 ^ 64)%N) by reflexivity.
  split; [split; assumption|].
  exact (@zero_maxHoldOff_gives_constant_holdOff nat 10 10 three_low 5 H1 H2).
Defined.

(** Witness of X13: [setParams(10, 10, 0)]. *)
Lemma maxHoldOff_is_minHoldOff_when_zero_witness :
  (10%N <> 0%N /\ unsigned_int 10) /\
  maxHoldOff (setParams 10 10 0 three_low)
  = minHoldOff (setParams 10 10 0 three_low).
Proof.
  assert (H1 : 10%N <> 0%N) by discriminate.
  assert (H2 : unsigned_int 10) by reflexivity.
  split; [split; assumption|].
  exact (@maxHoldOff_is_minHoldOff_when_zero nat 10 10 three_low H1 H2).
Defined.

(** Witness of X14: the pass over [five_low_cap_two] leaves three
    requests behind a batch of two. *)
Lemma work_left_only_behind_full_batch_witness :
  queued (after (cycle quiet five_low_cap_two)) <> [] /\
  maxBatchSize five_low_cap_two <> 0%N /\
  List.length (batch (cycle quiet five_low_cap_two))
  = N.to_nat (maxBatchSize five_low_cap_two).
Proof.
  assert (H : queued (after (cycle quiet five_low_cap_two)) <> [])
    by (vm_compute; discriminate).
  split; [exact H|].
  exact (@work_left_only_behind_full_batch nat five_low_cap_two H).
Defined.

(** Witness of X15: the destructor runs while the first two of five
    requests are processed. *)
Lemma shutdown_during_pass_witness :
  In DoShutdown (all_actions shutdown_during_processing) /\
  batch (cycle shutdown_during_processing five_low_cap_two) = [1; 2] /\
  workerShutdown (after (cycle shutdown_during_processing five_low_cap_two))
  = true /\
  workToDo (after (cycle shutdown_during_processing five_low_cap_two)) = true /\
  forall il',
    iteration il' (after (cycle shutdown_during_processing five_low_cap_two))
    = (Exited,
       wait (interfere (before_wait il')
                       (after (cycle shutdown_during_processing five_low_cap_two)))).
Proof.
  assert (H : In DoShutdown (all_actions shutdown_during_processing))
    by (vm_compute; auto).
  split; [exact H|]. split; [reflexivity|].
  exact (@shutdown_during_pass nat shutdown_during_processing five_low_cap_two H).
Defined.
